(** * Orchestration engine: shallow embedding and verified properties

    Embedding of
      packages/api/src/services/orchestrator/state.py
      packages/api/src/services/orchestrator/engine.py
    of the ai-orchestrator API package.

    Data.  Python dictionaries with a fixed set of keys (the TypedDicts
    of state.py) are records; dictionaries used as maps ([_active_tasks],
    [state["results"]], [MODE_CONFIGS]) are [gmap]s; Python integers are
    [Z] (counters that only count up from 0 or 1 are [nat]); the [float]
    cost is an exact rational ([Qc]); [None]-able values are [option]s;
    an ISO timestamp is the number of microseconds it denotes.

    Effects.  The coroutines that execute a task are computations in a
    state and exception monad over the task state, the clock and the log
    of emitted events.  What the code does not decide is a parameter:
    the clock, the outcome of every provider call, and the order in
    which the event loop runs the agents of a parallel phase.  The
    operations of the engine object pass the engine explicitly. *)

From Stdlib Require Import QArith Qcanon.
From stdpp Require Import numbers base option list sorting strings gmap.

Open Scope string_scope.
Open Scope list_scope.
Open Scope Z_scope.

(** ** state.py: statuses *)

Inductive TaskStatus :=
  | PENDING | DECOMPOSING | QUEUED | RUNNING | PAUSED
  | COMPLETED | FAILED | CANCELLED.

Inductive PhaseStatus :=
  | PHASE_PENDING | PHASE_RUNNING | PHASE_COMPLETED | PHASE_FAILED
  | PHASE_SKIPPED.

#[global] Instance TaskStatus_eq_dec : EqDecision TaskStatus.
Proof. solve_decision. Defined.

#[global] Instance PhaseStatus_eq_dec : EqDecision PhaseStatus.
Proof. solve_decision. Defined.

(** The [.value] of the string enums. *)
Definition TaskStatus_value (s : TaskStatus) : string :=
  match s with
  | PENDING => "pending" | DECOMPOSING => "decomposing"
  | QUEUED => "queued" | RUNNING => "running" | PAUSED => "paused"
  | COMPLETED => "completed" | FAILED => "failed"
  | CANCELLED => "cancelled"
  end.

Definition PhaseStatus_value (s : PhaseStatus) : string :=
  match s with
  | PHASE_PENDING => "pending" | PHASE_RUNNING => "running"
  | PHASE_COMPLETED => "completed" | PHASE_FAILED => "failed"
  | PHASE_SKIPPED => "skipped"
  end.

(** The statuses the specification calls terminal. *)
Definition terminal (s : TaskStatus) : bool :=
  match s with
  | COMPLETED | FAILED | CANCELLED => true
  | _ => false
  end.

(** ** Mode configurations (the values of [MODE_CONFIGS])

    A key read with [dict.get] is an [option]: [None] is the absent key. *)

Record ModelRef := {
  model_provider : option string;
  model_name : option string;
}.

Record ModeConfig := {
  decompositionDepth : option string;
  parallelizationLevel : option string;
  validationDepth : option string;
  requiresHumanApproval : option bool;
  primaryModel : option ModelRef;
  fallbackModel : option ModelRef;
  requiredAgents : option (list string);
  optionalAgents : option (list string);
  taskTimeout : option Z;
  maxRetries : option Z;
  costLimit : option Qc;
}.

Definition mk_model (p m : string) : option ModelRef :=
  Some {| model_provider := Some p; model_name := Some m |}.

Definition SPEED_config : ModeConfig := {|
  decompositionDepth := Some "shallow";
  parallelizationLevel := Some "aggressive";
  validationDepth := Some "minimal";
  requiresHumanApproval := Some false;
  primaryModel := mk_model "claude" "claude-3-5-sonnet-20241022";
  fallbackModel := mk_model "ollama" "codellama:7b";
  requiredAgents := Some ["implement"];
  optionalAgents := Some [];
  taskTimeout := Some 300000;
  maxRetries := Some 1;
  costLimit := None;
|}.

Definition QUALITY_config : ModeConfig := {|
  decompositionDepth := Some "deep";
  parallelizationLevel := Some "balanced";
  validationDepth := Some "comprehensive";
  requiresHumanApproval := Some true;
  primaryModel := mk_model "claude" "claude-opus-4-5-20251101";
  fallbackModel := mk_model "claude" "claude-3-5-sonnet-20241022";
  requiredAgents :=
    Some ["concept"; "architect"; "implement"; "test"; "review"; "docs"];
  optionalAgents := Some ["security"; "optimize"];
  taskTimeout := Some 900000;
  maxRetries := Some 3;
  costLimit := None;
|}.

Definition AUTONOMY_config : ModeConfig := {|
  decompositionDepth := Some "deep";
  parallelizationLevel := Some "balanced";
  validationDepth := Some "standard";
  requiresHumanApproval := Some false;
  primaryModel := mk_model "claude" "claude-opus-4-5-20251101";
  fallbackModel := mk_model "claude" "claude-3-5-sonnet-20241022";
  requiredAgents :=
    Some ["concept"; "architect"; "implement"; "test"; "review"; "docs";
          "deploy"];
  optionalAgents := Some ["security"; "optimize"];
  taskTimeout := Some 1200000;
  maxRetries := Some 3;
  costLimit := None;
|}.

Definition COST_config : ModeConfig := {|
  decompositionDepth := Some "shallow";
  parallelizationLevel := Some "conservative";
  validationDepth := Some "minimal";
  requiresHumanApproval := Some false;
  primaryModel := mk_model "ollama" "codellama:7b";
  fallbackModel := mk_model "claude" "claude-3-5-haiku-20241022";
  requiredAgents := Some ["implement"; "test"];
  optionalAgents := Some [];
  taskTimeout := Some 600000;
  maxRetries := Some 2;
  costLimit := Some 1%Qc;
|}.

Definition MODE_CONFIGS : gmap string ModeConfig :=
  <["SPEED" := SPEED_config]>
  (<["QUALITY" := QUALITY_config]>
  (<["AUTONOMY" := AUTONOMY_config]>
  (<["COST" := COST_config]> ∅))).

(** ** state.py: executions, phases, tasks *)

Record AgentExecution := {
  exec_agent_type : string;
  exec_status : string;
  exec_output : option string;      (* the "response" of the output dict *)
  exec_error : option string;
  exec_model_used : option string;
  exec_tokens_input : Z;
  exec_tokens_output : Z;
  exec_cost : Qc;
  exec_started_at : option Z;
  exec_completed_at : option Z;
  exec_duration_ms : option Z;
}.

Record PhaseState := {
  phase_number : nat;
  phase_name : string;
  phase_description : string;
  phase_status : PhaseStatus;
  phase_parallel : bool;
  phase_agents : list string;
  phase_executions : list AgentExecution;
  phase_started_at : option Z;
  phase_completed_at : option Z;
}.

(** An entry of [state["results"]]. *)
Record AgentResult := {
  result_output : string;
  result_tokens : Z;
  result_cost : Qc;
}.

(** An entry of [state["errors"]]. *)
Record ErrorRecord := {
  error_type : string;
  error_phase : option nat;
  error_message : string;
  error_timestamp : Z;
}.

Record TaskState := {
  task_id : string;
  description : string;
  project_id : option string;
  mode : string;
  status : TaskStatus;
  priority : Z;
  phases : list PhaseState;
  current_phase : nat;
  results : gmap string AgentResult;
  files_modified : list string;
  errors : list ErrorRecord;
  tokens_used : Z;
  estimated_cost : Qc;
  created_at : Z;
  started_at : option Z;
  completed_at : option Z;
  mode_config : ModeConfig;
}.

Definition create_initial_task_state (task_id description mode : string)
    (mode_config : ModeConfig) (project_id : option string) (priority : Z)
    (now : Z) : TaskState := {|
  task_id := task_id;
  description := description;
  project_id := project_id;
  mode := mode;
  status := PENDING;
  priority := priority;
  phases := [];
  current_phase := 0;
  results := ∅;
  files_modified := [];
  errors := [];
  tokens_used := 0;
  estimated_cost := 0%Qc;
  created_at := now;
  started_at := None;
  completed_at := None;
  mode_config := mode_config;
|}.

Definition create_phase_state (number : nat) (name description : string)
    (agents : list string) (parallel : bool) : PhaseState := {|
  phase_number := number;
  phase_name := name;
  phase_description := description;
  phase_status := PHASE_PENDING;
  phase_parallel := parallel;
  phase_agents := agents;
  phase_executions := [];
  phase_started_at := None;
  phase_completed_at := None;
|}.

Definition create_agent_execution (agent_type : string) : AgentExecution := {|
  exec_agent_type := agent_type;
  exec_status := "pending";
  exec_output := None;
  exec_error := None;
  exec_model_used := None;
  exec_tokens_input := 0;
  exec_tokens_output := 0;
  exec_cost := 0%Qc;
  exec_started_at := None;
  exec_completed_at := None;
  exec_duration_ms := None;
|}.

(** ** engine.py: [_decompose_task], the phase list it builds *)

Definition phase_groups : list (list string * string * string) :=
  [ (["concept"], "Concept", "Analyze requirements");
    (["architect"], "Architecture", "Design system architecture");
    (["implement"], "Implementation", "Generate code");
    (["test"], "Testing", "Create and run tests");
    (["review"; "security"], "Review", "Code review and security audit");
    (["optimize"], "Optimization", "Performance optimization");
    (["docs"], "Documentation", "Generate documentation");
    (["deploy"], "Deployment", "Deploy changes") ].

(** The [for agents, name, description in phase_groups] loop, with its
    counter [phase_num]. *)
Fixpoint group_phases (required_agents : list string) (phase_num : nat)
    (groups : list (list string * string * string)) : list PhaseState :=
  match groups with
  | [] => []
  | (agents, name, description) :: rest =>
      let phase_agents := filter (λ a, a ∈ required_agents) agents in
      match phase_agents with
      | [] => group_phases required_agents phase_num rest
      | _ :: _ =>
          create_phase_state phase_num name description phase_agents
            (bool_decide (1 < length phase_agents)%nat)
          :: group_phases required_agents (S phase_num) rest
      end
  end.

Definition decompose_phases (mode_config : ModeConfig) : list PhaseState :=
  let required_agents := default ["implement"] (requiredAgents mode_config) in
  if decide (decompositionDepth mode_config = Some "shallow") then
    [ create_phase_state 1 "Execution" "Execute all agents" required_agents
        (bool_decide (parallelizationLevel mode_config = Some "aggressive")) ]
  else
    group_phases required_agents 1 phase_groups.

(** ** In-place updates of the state dictionaries

    [state["k"] = v] on a TypedDict is a record update. *)

Definition set_status (v : TaskStatus) (s : TaskState) : TaskState :=
  {| task_id := task_id s; description := description s;
     project_id := project_id s; mode := mode s; status := v;
     priority := priority s; phases := phases s;
     current_phase := current_phase s; results := results s;
     files_modified := files_modified s; errors := errors s;
     tokens_used := tokens_used s; estimated_cost := estimated_cost s;
     created_at := created_at s; started_at := started_at s;
     completed_at := completed_at s; mode_config := mode_config s |}.

Definition set_phases (v : list PhaseState) (s : TaskState) : TaskState :=
  {| task_id := task_id s; description := description s;
     project_id := project_id s; mode := mode s; status := status s;
     priority := priority s; phases := v;
     current_phase := current_phase s; results := results s;
     files_modified := files_modified s; errors := errors s;
     tokens_used := tokens_used s; estimated_cost := estimated_cost s;
     created_at := created_at s; started_at := started_at s;
     completed_at := completed_at s; mode_config := mode_config s |}.

Definition set_current_phase (v : nat) (s : TaskState) : TaskState :=
  {| task_id := task_id s; description := description s;
     project_id := project_id s; mode := mode s; status := status s;
     priority := priority s; phases := phases s;
     current_phase := v; results := results s;
     files_modified := files_modified s; errors := errors s;
     tokens_used := tokens_used s; estimated_cost := estimated_cost s;
     created_at := created_at s; started_at := started_at s;
     completed_at := completed_at s; mode_config := mode_config s |}.

Definition set_results (v : gmap string AgentResult) (s : TaskState)
    : TaskState :=
  {| task_id := task_id s; description := description s;
     project_id := project_id s; mode := mode s; status := status s;
     priority := priority s; phases := phases s;
     current_phase := current_phase s; results := v;
     files_modified := files_modified s; errors := errors s;
     tokens_used := tokens_used s; estimated_cost := estimated_cost s;
     created_at := created_at s; started_at := started_at s;
     completed_at := completed_at s; mode_config := mode_config s |}.

Definition set_errors (v : list ErrorRecord) (s : TaskState) : TaskState :=
  {| task_id := task_id s; description := description s;
     project_id := project_id s; mode := mode s; status := status s;
     priority := priority s; phases := phases s;
     current_phase := current_phase s; results := results s;
     files_modified := files_modified s; errors := v;
     tokens_used := tokens_used s; estimated_cost := estimated_cost s;
     created_at := created_at s; started_at := started_at s;
     completed_at := completed_at s; mode_config := mode_config s |}.

Definition set_tokens_used (v : Z) (s : TaskState) : TaskState :=
  {| task_id := task_id s; description := description s;
     project_id := project_id s; mode := mode s; status := status s;
     priority := priority s; phases := phases s;
     current_phase := current_phase s; results := results s;
     files_modified := files_modified s; errors := errors s;
     tokens_used := v; estimated_cost := estimated_cost s;
     created_at := created_at s; started_at := started_at s;
     completed_at := completed_at s; mode_config := mode_config s |}.

Definition set_estimated_cost (v : Qc) (s : TaskState) : TaskState :=
  {| task_id := task_id s; description := description s;
     project_id := project_id s; mode := mode s; status := status s;
     priority := priority s; phases := phases s;
     current_phase := current_phase s; results := results s;
     files_modified := files_modified s; errors := errors s;
     tokens_used := tokens_used s; estimated_cost := v;
     created_at := created_at s; started_at := started_at s;
     completed_at := completed_at s; mode_config := mode_config s |}.

Definition set_started_at (v : option Z) (s : TaskState) : TaskState :=
  {| task_id := task_id s; description := description s;
     project_id := project_id s; mode := mode s; status := status s;
     priority := priority s; phases := phases s;
     current_phase := current_phase s; results := results s;
     files_modified := files_modified s; errors := errors s;
     tokens_used := tokens_used s; estimated_cost := estimated_cost s;
     created_at := created_at s; started_at := v;
     completed_at := completed_at s; mode_config := mode_config s |}.

Definition set_completed_at (v : option Z) (s : TaskState) : TaskState :=
  {| task_id := task_id s; description := description s;
     project_id := project_id s; mode := mode s; status := status s;
     priority := priority s; phases := phases s;
     current_phase := current_phase s; results := results s;
     files_modified := files_modified s; errors := errors s;
     tokens_used := tokens_used s; estimated_cost := estimated_cost s;
     created_at := created_at s; started_at := started_at s;
     completed_at := v; mode_config := mode_config s |}.

Definition set_phase_status (v : PhaseStatus) (p : PhaseState) : PhaseState :=
  {| phase_number := phase_number p; phase_name := phase_name p;
     phase_description := phase_description p; phase_status := v;
     phase_parallel := phase_parallel p; phase_agents := phase_agents p;
     phase_executions := phase_executions p;
     phase_started_at := phase_started_at p;
     phase_completed_at := phase_completed_at p |}.

Definition set_phase_executions (v : list AgentExecution) (p : PhaseState)
    : PhaseState :=
  {| phase_number := phase_number p; phase_name := phase_name p;
     phase_description := phase_description p;
     phase_status := phase_status p;
     phase_parallel := phase_parallel p; phase_agents := phase_agents p;
     phase_executions := v;
     phase_started_at := phase_started_at p;
     phase_completed_at := phase_completed_at p |}.

Definition set_phase_started_at (v : option Z) (p : PhaseState) : PhaseState :=
  {| phase_number := phase_number p; phase_name := phase_name p;
     phase_description := phase_description p;
     phase_status := phase_status p;
     phase_parallel := phase_parallel p; phase_agents := phase_agents p;
     phase_executions := phase_executions p;
     phase_started_at := v;
     phase_completed_at := phase_completed_at p |}.

Definition set_phase_completed_at (v : option Z) (p : PhaseState)
    : PhaseState :=
  {| phase_number := phase_number p; phase_name := phase_name p;
     phase_description := phase_description p;
     phase_status := phase_status p;
     phase_parallel := phase_parallel p; phase_agents := phase_agents p;
     phase_executions := phase_executions p;
     phase_started_at := phase_started_at p;
     phase_completed_at := v |}.

(** The result dictionary of a provider's [generate]; every key is read
    with [result.get], so each may be absent. *)
Record GenerateResult := {
  gen_content : option string;
  gen_model : option string;
  gen_tokens_input : option Z;
  gen_tokens_output : option Z;
  gen_cost : option Qc;
}.

(** Lines 433-434 of [_execute_agent]. *)
Definition exec_start (now : Z) (e : AgentExecution) : AgentExecution :=
  {| exec_agent_type := exec_agent_type e; exec_status := "running";
     exec_output := exec_output e; exec_error := exec_error e;
     exec_model_used := exec_model_used e;
     exec_tokens_input := exec_tokens_input e;
     exec_tokens_output := exec_tokens_output e; exec_cost := exec_cost e;
     exec_started_at := Some now;
     exec_completed_at := exec_completed_at e;
     exec_duration_ms := exec_duration_ms e |}.

(** Lines 473-478: "Update execution". *)
Definition exec_succeed (result : GenerateResult) (e : AgentExecution)
    : AgentExecution :=
  {| exec_agent_type := exec_agent_type e; exec_status := "completed";
     exec_output := Some (default "" (gen_content result));
     exec_error := exec_error e;
     exec_model_used := gen_model result;
     exec_tokens_input := default 0 (gen_tokens_input result);
     exec_tokens_output := default 0 (gen_tokens_output result);
     exec_cost := default 0%Qc (gen_cost result);
     exec_started_at := exec_started_at e;
     exec_completed_at := exec_completed_at e;
     exec_duration_ms := exec_duration_ms e |}.

(** Lines 492-493: the [except Exception] branch. *)
Definition exec_fail (msg : string) (e : AgentExecution) : AgentExecution :=
  {| exec_agent_type := exec_agent_type e; exec_status := "failed";
     exec_output := exec_output e; exec_error := Some msg;
     exec_model_used := exec_model_used e;
     exec_tokens_input := exec_tokens_input e;
     exec_tokens_output := exec_tokens_output e; exec_cost := exec_cost e;
     exec_started_at := exec_started_at e;
     exec_completed_at := exec_completed_at e;
     exec_duration_ms := exec_duration_ms e |}.

(** Lines 503-507: the [finally] branch.  Timestamps are microseconds;
    [int(seconds * 1000)] truncates towards zero.  The duration is
    computed exactly here; the float product of the source can fall
    one millisecond short of it. *)
Definition exec_finish (now : Z) (e : AgentExecution) : AgentExecution :=
  {| exec_agent_type := exec_agent_type e; exec_status := exec_status e;
     exec_output := exec_output e; exec_error := exec_error e;
     exec_model_used := exec_model_used e;
     exec_tokens_input := exec_tokens_input e;
     exec_tokens_output := exec_tokens_output e; exec_cost := exec_cost e;
     exec_started_at := exec_started_at e;
     exec_completed_at := Some now;
     exec_duration_ms :=
       match exec_started_at e with
       | Some start => Some (Z.quot (now - start) 1000)
       | None => exec_duration_ms e
       end |}.

(** ** Effects: exceptions, the clock, the event log

    The coroutines of engine.py mutate one task state, read the clock and
    emit events; some statements can raise.  They are embedded in a state
    and exception monad over a context holding the task state, the number
    of clock reads so far and the log of emitted events. *)

Inductive exn :=
  | Exception (msg : string)
  | KeyError (key : string).

Definition str (e : exn) : string :=
  match e with
  | Exception msg => msg
  | KeyError key => ("'" ++ key ++ "'")%string
  end.

Inductive outcome (A : Type) :=
  | Return (a : A)
  | Raise (e : exn).
Arguments Return {A} a.
Arguments Raise {A} e.

Inductive EventData :=
  | TaskData (state : TaskState)
  | PhaseData (task : string) (phase : PhaseState)
  | AgentStartedData (task : string) (phase : nat) (agent : string)
  | AgentCompletedData (task : string) (phase : nat) (agent : string)
      (execution : AgentExecution).

(** An emitted event.  [event_state] is what an observer reading the task
    state at the moment of emission sees; emissions (and the provider call
    that follows an emission) are the only points at which a coroutine of
    the executor yields control. *)
Record Event := {
  event_type : string;
  event_data : EventData;
  event_state : TaskState;
}.

Record Ctx := {
  ctx_state : TaskState;
  ctx_reads : nat;
  ctx_log : list Event;
}.

Definition M (A : Type) : Type := Ctx → outcome A * Ctx.

#[global] Instance M_ret : MRet M := λ A a c, (Return a, c).

#[global] Instance M_bind : MBind M := λ A B k m c,
  match m c with
  | (Return a, c') => k a c'
  | (Raise e, c') => (Raise e, c')
  end.

(** [try: m except Exception as e: h e] *)
Definition try_except {A} (m : M A) (h : exn → M A) : M A := λ c,
  match m c with
  | (Return a, c') => (Return a, c')
  | (Raise e, c') => h e c'
  end.

(** [try: m finally: f] *)
Definition try_finally {A} (m : M A) (f : M unit) : M A := λ c,
  match m c with
  | (r, c') =>
      match f c' with
      | (Return _, c'') => (r, c'')
      | (Raise e, c'') => (Raise e, c'')
      end
  end.

Definition get_state : M TaskState := λ c, (Return (ctx_state c), c).

Definition modify_state (f : TaskState → TaskState) : M unit := λ c,
  (Return (),
   {| ctx_state := f (ctx_state c); ctx_reads := ctx_reads c;
      ctx_log := ctx_log c |}).

(** [self._emit_event(event, data)]: handlers and subscribers receive the
    event; an exception of a handler or of a subscriber's socket is
    caught there, so emitting never raises. *)
Definition _emit_event (event : string) (data : EventData) : M unit := λ c,
  (Return (),
   {| ctx_state := ctx_state c; ctx_reads := ctx_reads c;
      ctx_log := ctx_log c ++
        [ {| event_type := event; event_data := data;
             event_state := ctx_state c |} ] |}).

(** The phase dictionary [phase] that the Python code holds by reference is
    the element of [state["phases"]] at position [pi]; an execution
    dictionary is the element at position [ei] of that phase's
    executions.  In-place mutation is [alter] at that position. *)
Definition phase_at (pi : nat) (s : TaskState) : PhaseState :=
  default (create_phase_state 0 "" "" [] false) (phases s !! pi).

Definition execution_at (pi ei : nat) (s : TaskState) : AgentExecution :=
  default (create_agent_execution "")
    (phase_executions (phase_at pi s) !! ei).

Definition modify_phase (pi : nat) (f : PhaseState → PhaseState) : M unit :=
  modify_state (λ s, set_phases (alter f pi (phases s)) s).

Definition modify_execution (pi ei : nat)
    (f : AgentExecution → AgentExecution) : M unit :=
  modify_phase pi
    (λ p, set_phase_executions (alter f ei (phase_executions p)) p).

Definition emit_state (event : string) : M unit :=
  s ← get_state; _emit_event event (TaskData s).

Definition emit_phase (event : string) (pi : nat) : M unit :=
  s ← get_state; _emit_event event (PhaseData (task_id s) (phase_at pi s)).

(** What lines 445-470 of [_execute_agent] produce: the provider's result
    dictionary, or the exception raised while building the prompt,
    obtaining the provider or generating. *)
Inductive ProviderOutcome :=
  | Generated (result : GenerateResult)
  | ProviderError (msg : string).

Section Executor.

(** The environment of one task execution: the value of the [k]-th
    clock read, the outcome of the provider call made for the execution
    at position [ei] of the phase at position [pi] of a task, and the
    schedule of the event loop in a parallel phase. *)
Variable clock : nat → Z.
Variable provider : string → nat → nat → ProviderOutcome.
Variable gather_order : string → nat → list nat.

Definition utcnow : M Z := λ c,
  (Return (clock (ctx_reads c)),
   {| ctx_state := ctx_state c; ctx_reads := S (ctx_reads c);
      ctx_log := ctx_log c |}).

Definition generate (pi ei : nat) : M GenerateResult := λ c,
  match provider (task_id (ctx_state c)) pi ei with
  | Generated result => (Return result, c)
  | ProviderError msg => (Raise (Exception msg), c)
  end.

(** *** [_execute_agent]

    Lines 432-442: up to and including the [agent_started] event.
    Returns the position of the appended execution. *)
Definition start_agent (pi : nat) (agent_type : string) : M nat :=
  now ← utcnow;
  let execution := exec_start now (create_agent_execution agent_type) in
  s ← get_state;
  let ei := length (phase_executions (phase_at pi s)) in
  modify_phase pi
    (λ p, set_phase_executions (phase_executions p ++ [execution]) p);;
  _emit_event "agent_started"
    (AgentStartedData (task_id s) (phase_number (phase_at pi s))
       agent_type);;
  mret ei.

(** Lines 444-514: the provider call and what follows it. *)
Definition finish_agent (pi : nat) (agent_type : string) (ei : nat)
    : M unit :=
  try_finally
    (try_except
       (result ← generate pi ei;
        (* Update execution *)
        modify_execution pi ei (exec_succeed result);;
        (* Update task totals *)
        s ← get_state;
        let execution := execution_at pi ei s in
        modify_state (set_tokens_used
          (tokens_used s + (exec_tokens_input execution
                            + exec_tokens_output execution)));;
        modify_state (set_estimated_cost
          (estimated_cost s + exec_cost execution)%Qc);;
        (* Store result *)
        modify_state (λ s, set_results
          (<[agent_type :=
               {| result_output := default "" (gen_content result);
                  result_tokens := exec_tokens_input execution
                                   + exec_tokens_output execution;
                  result_cost := exec_cost execution |}]> (results s)) s))
       (λ e, modify_execution pi ei (exec_fail (str e))))
    (now ← utcnow;
     modify_execution pi ei (exec_finish now);;
     s ← get_state;
     _emit_event "agent_completed"
       (AgentCompletedData (task_id s) (phase_number (phase_at pi s))
          agent_type (execution_at pi ei s))).

Definition _execute_agent (pi : nat) (agent_type : string) : M unit :=
  ei ← start_agent pi agent_type;
  finish_agent pi agent_type ei.

(** *** [_execute_phase] *)

(** The sequential [for agent_type in agents] loop with its [break]. *)
Fixpoint run_sequential (pi : nat) (agents : list string) : M unit :=
  match agents with
  | [] => mret ()
  | agent_type :: rest =>
      _execute_agent pi agent_type;;
      (* Check for failure *)
      s ← get_state;
      let last_execution := last (phase_executions (phase_at pi s)) in
      match last_execution with
      | Some e =>
          if decide (exec_status e = "failed") then mret ()
          else run_sequential pi rest
      | None => run_sequential pi rest
      end
  end.

(** The coroutines of a parallel phase that have not begun yet begin, in
    order, each running to its provider call. *)
Fixpoint start_all (pi : nat) (agents : list string)
    : M (list (string * nat)) :=
  match agents with
  | [] => mret []
  | agent_type :: rest =>
      ei ← start_agent pi agent_type;
      started ← start_all pi rest;
      mret ((agent_type, ei) :: started)
  end.

(** The pending provider calls return, in order. *)
Fixpoint finish_all (pi : nat) (running : list (string * nat)) : M unit :=
  match running with
  | [] => mret ()
  | (agent_type, ei) :: rest =>
      finish_agent pi agent_type ei;;
      finish_all pi rest
  end.

(** [asyncio.gather] over the agents of a parallel phase.  The
    coroutines begin in the order of the agents; each runs without
    interruption up to its provider call ([start_agent]) and, once the
    call has returned, to its end ([finish_agent]).  The schedule says
    what the event loop runs next: an entry [k] that names one of the
    [running] coroutines (begun, waiting for the provider) lets its call
    return; any other entry lets the next coroutine of [todo] begin.
    When the schedule is used up, the remaining coroutines begin and the
    pending calls return in order: [gather] waits for all of them. *)
Fixpoint gather_loop (pi : nat) (sched : list nat) (todo : list string)
    (running : list (string * nat)) : M unit :=
  match sched with
  | [] =>
      started ← start_all pi todo;
      finish_all pi (running ++ started)
  | k :: sched' =>
      match running !! k with
      | Some (agent_type, ei) =>
          finish_agent pi agent_type ei;;
          gather_loop pi sched' todo (delete k running)
      | None =>
          match todo with
          | [] => gather_loop pi sched' [] running
          | agent_type :: todo' =>
              ei ← start_agent pi agent_type;
              gather_loop pi sched' todo' (running ++ [(agent_type, ei)])
          end
      end
  end.

Definition gather (pi : nat) (agents : list string) : M unit :=
  s ← get_state;
  gather_loop pi (gather_order (task_id s) pi) agents [].

Definition _execute_phase (pi : nat) : M unit :=
  modify_phase pi (set_phase_status PHASE_RUNNING);;
  now ← utcnow;
  modify_phase pi (set_phase_started_at (Some now));;
  emit_phase "phase_started" pi;;
  try_finally
    (try_except
       (s ← get_state;
        let agents := phase_agents (phase_at pi s) in
        (if phase_parallel (phase_at pi s)
            && bool_decide (1 < length agents)%nat
         then gather pi agents
         else run_sequential pi agents);;
        (* Determine phase status *)
        s ← get_state;
        let failed :=
          bool_decide (Exists (λ e, exec_status e = "failed")
                         (phase_executions (phase_at pi s))) in
        modify_phase pi (set_phase_status
          (if failed then PHASE_FAILED else PHASE_COMPLETED)))
       (λ e,
        modify_phase pi (set_phase_status PHASE_FAILED);;
        s ← get_state;
        now ← utcnow;
        modify_state (λ s', set_errors
          (errors s' ++
             [ {| error_type := "phase_error";
                  error_phase := Some (phase_number (phase_at pi s));
                  error_message := str e;
                  error_timestamp := now |} ]) s')))
    (now ← utcnow;
     modify_phase pi (set_phase_completed_at (Some now));;
     emit_phase "phase_completed" pi).

(** *** [_decompose_task] *)
Definition _decompose_task : M unit :=
  s ← get_state;
  modify_state (set_phases (decompose_phases (mode_config s))).

(** *** [_execute_task]

    The [for phase_idx, phase in enumerate(state["phases"])] loop, with
    [n] phases left to visit. *)
Fixpoint run_phases (phase_idx n : nat) : M unit :=
  match n with
  | O => mret ()
  | S n' =>
      modify_state (set_current_phase phase_idx);;
      _execute_phase phase_idx;;
      (* Check for failure *)
      s ← get_state;
      if decide (phase_status (phase_at phase_idx s) = PHASE_FAILED) then
        modify_state (set_status FAILED)
      else run_phases (S phase_idx) n'
  end.

(** The body of [_execute_task] for the state found under the task id
    (the lookup and the removal of the worker are in [run_worker]
    below). *)
Definition _execute_task : M unit :=
  try_except
    ((* Update status *)
     modify_state (set_status DECOMPOSING);;
     now ← utcnow;
     modify_state (set_started_at (Some now));;
     emit_state "task_started";;
     (* Decompose task into phases *)
     _decompose_task;;
     (* Update status *)
     modify_state (set_status RUNNING);;
     emit_state "task_decomposed";;
     (* Execute phases *)
     s ← get_state;
     run_phases 0 (length (phases s));;
     (* Mark complete if all phases succeeded *)
     s ← get_state;
     (if decide (status s = RUNNING) then
        modify_state (set_status COMPLETED);;
        now ← utcnow;
        modify_state (set_completed_at (Some now))
      else mret ());;
     emit_state "task_completed")
    (λ e,
     modify_state (set_status FAILED);;
     now ← utcnow;
     modify_state (set_completed_at (Some now));;
     now' ← utcnow;
     modify_state (λ s, set_errors
       (errors s ++
          [ {| error_type := "execution_error"; error_phase := None;
               error_message := str e; error_timestamp := now' |} ]) s);;
     emit_state "task_failed").

End Executor.

(** ** engine.py: the engine object and its operations *)

Record Engine := {
  _current_mode : string;
  _active_tasks : gmap string TaskState;
  _task_queue : list string;
  _workers : gset string;      (* the keys of the worker table *)
  _max_workers : nat;
  _running : bool;
  engine_reads : nat;          (* clock reads so far *)
  engine_log : list Event;     (* events emitted so far *)
}.

(** config.py: [settings.default_mode], [settings.max_workers]. *)
Definition settings_default_mode : string := "QUALITY".
Definition settings_max_workers : nat := 4.

(** [OrchestratorEngine()]: the engine as [__init__] leaves it, not
    running. *)
Definition init_engine : Engine := {|
  _current_mode := settings_default_mode;
  _active_tasks := ∅;
  _task_queue := [];
  _workers := ∅;
  _max_workers := settings_max_workers;
  _running := false;
  engine_reads := 0;
  engine_log := [];
|}.

(** [start]. *)
Definition start (e : Engine) : Engine := {|
  _current_mode := _current_mode e;
  _active_tasks := _active_tasks e;
  _task_queue := _task_queue e;
  _workers := _workers e;
  _max_workers := _max_workers e;
  _running := true;
  engine_reads := engine_reads e;
  engine_log := engine_log e;
|}.

(** The engine that [get_orchestrator] builds: created, then started. *)
Definition new_engine : Engine := start init_engine.

(** [list.remove(x)]: drops the first occurrence. *)
Fixpoint list_remove_first (x : string) (l : list string) : list string :=
  match l with
  | [] => []
  | y :: l' => if decide (x = y) then l' else y :: list_remove_first x l'
  end.

(** [list.sort(key=..., reverse=True)] is a stable sort: ids of equal
    priority keep their order. *)
Definition priority_of (active : gmap string TaskState) (tid : string) : Z :=
  from_option priority 0 (active !! tid).

Fixpoint insert_by_priority (active : gmap string TaskState) (tid : string)
    (l : list string) : list string :=
  match l with
  | [] => [tid]
  | y :: l' =>
      if decide (priority_of active tid < priority_of active y)
      then y :: insert_by_priority active tid l'
      else tid :: l
  end.

Definition sort_by_priority (active : gmap string TaskState)
    (queue : list string) : list string :=
  foldr (insert_by_priority active) [] queue.

Section EngineOps.

Variable clock : nat → Z.
Variable provider : string → nat → nat → ProviderOutcome.
Variable gather_order : string → nat → list nat.

(** [submit_task].  The sort key [self._active_tasks[tid]] raises
    [KeyError] for a queued id that has no state.  The queue processor
    that [submit_task] spawns when the engine is running is the separate
    step [_process_queue] below. *)
Definition submit_task (task_id description : string)
    (mode : option string) (project_id : option string) (priority : Z)
    (e : Engine) : outcome TaskState * Engine :=
  let mode :=
    match mode with
    | Some m => if decide (m = "") then _current_mode e else m
    | None => _current_mode e
    end in
  let mode_config := default QUALITY_config (MODE_CONFIGS !! mode) in
  (* Create initial state *)
  let state :=
    create_initial_task_state task_id description mode mode_config
      project_id priority (clock (engine_reads e)) in
  let active := <[task_id := state]> (_active_tasks e) in
  (* Add to queue (sorted by priority) *)
  let queue := _task_queue e ++ [task_id] in
  match list_find (λ tid, active !! tid = None) queue with
  | Some (_, tid) =>
      (Raise (KeyError tid),
       {| _current_mode := _current_mode e; _active_tasks := active;
          _task_queue := queue; _workers := _workers e;
          _max_workers := _max_workers e; _running := _running e;
          engine_reads := S (engine_reads e);
          engine_log := engine_log e |})
  | None =>
      (Return state,
       {| _current_mode := _current_mode e; _active_tasks := active;
          _task_queue := sort_by_priority active queue;
          _workers := _workers e;
          _max_workers := _max_workers e; _running := _running e;
          engine_reads := S (engine_reads e);
          engine_log := engine_log e ++
            [ {| event_type := "task_submitted";
                 event_data := TaskData state;
                 event_state := state |} ] |})
  end.

Definition get_task_state (task_id : string) (e : Engine)
    : option TaskState :=
  _active_tasks e !! task_id.

(** [cancel_task].  The operations of this model run one after the
    other, a worker running from its beginning to its end in one step
    ([run_worker] below).  So a worker found in [_workers] has been
    created by [_process_queue] and has not begun to run: cancelling it
    keeps its body, and the [finally] in it, from running, and the [del]
    here removes it.  Cancelling a worker in the middle of its run is
    outside the model: there the [finally] of the worker removes the
    entry first and the [del] here raises [KeyError]. *)
Definition cancel_task (task_id : string) (e : Engine)
    : outcome bool * Engine :=
  match _active_tasks e !! task_id with
  | None => (Return false, e)
  | Some state =>
      if decide (status state ∈ [COMPLETED; FAILED]) then (Return false, e)
      else
        (* Update state *)
        let state :=
          set_completed_at (Some (clock (engine_reads e)))
            (set_status CANCELLED state) in
        (Return true,
         {| _current_mode := _current_mode e;
            _active_tasks := <[task_id := state]> (_active_tasks e);
            (* Remove from queue *)
            _task_queue := list_remove_first task_id (_task_queue e);
            (* Cancel worker if running *)
            _workers := _workers e ∖ {[task_id]};
            _max_workers := _max_workers e; _running := _running e;
            engine_reads := S (engine_reads e);
            engine_log := engine_log e ++
              [ {| event_type := "task_cancelled";
                   event_data := TaskData state;
                   event_state := state |} ] |})
  end.

(** [_process_queue]: the [while self._running and self._task_queue]
    loop.  With the worker pool full the loop sleeps until a worker
    ends; here it returns and is resumed by a later step.  Returns the
    queue and the worker set.

    Of the worker table [self._workers] the model keeps the keys.  For
    an id that is queued twice the loop creates two worker coroutines;
    the second assignment overwrites the entry of the first, whose
    coroutine stays scheduled all the same.  Both run [_execute_task] on
    the state stored under the id: the run of each is [run_worker]
    below. *)
Fixpoint start_workers (active : gmap string TaskState) (max_workers : nat)
    (queue : list string) (workers : gset string)
    : list string * gset string :=
  match queue with
  | [] => ([], workers)
  | task_id :: rest =>
      if decide (max_workers ≤ size workers)%nat then (queue, workers)
      else
        match active !! task_id with
        | Some state =>
            if decide (status state = PENDING) then
              (* Start worker *)
              start_workers active max_workers rest ({[task_id]} ∪ workers)
            else start_workers active max_workers rest workers
        | None => start_workers active max_workers rest workers
        end
  end.

Definition _process_queue (e : Engine) : Engine :=
  if _running e then
    let '(queue, workers) :=
      start_workers (_active_tasks e) (_max_workers e) (_task_queue e)
        (_workers e) in
    {| _current_mode := _current_mode e;
       _active_tasks := _active_tasks e;
       _task_queue := queue; _workers := workers;
       _max_workers := _max_workers e; _running := _running e;
       engine_reads := engine_reads e; engine_log := engine_log e |}
  else e.

(** A worker: [_execute_task(task_id)] run to its end on the state
    stored under the id, then the [finally] that removes the entry of
    the id from the worker table, whichever coroutine it holds. *)
Definition run_worker (task_id : string) (e : Engine) : Engine :=
  match _active_tasks e !! task_id with
  | None => e
  | Some state =>
      let '(_, c) :=
        _execute_task clock provider gather_order
          {| ctx_state := state; ctx_reads := engine_reads e;
             ctx_log := engine_log e |} in
      {| _current_mode := _current_mode e;
         _active_tasks := <[task_id := ctx_state c]> (_active_tasks e);
         _task_queue := _task_queue e;
         _workers := _workers e ∖ {[task_id]};
         _max_workers := _max_workers e; _running := _running e;
         engine_reads := ctx_reads c; engine_log := ctx_log c |}
  end.

(** The operations of the engine, and the states they reach from a new
    engine.  [OpRunWorker] is the run of the worker that the table
    holds for an id; the run of a worker coroutine whose entry has been
    overwritten or removed is not among the operations. *)
Inductive Op :=
  | OpSubmit (task_id description : string) (mode : option string)
      (project_id : option string) (priority : Z)
  | OpCancel (task_id : string)
  | OpProcessQueue
  | OpRunWorker (task_id : string).

Definition apply_op (op : Op) (e : Engine) : Engine :=
  match op with
  | OpSubmit task_id description mode project_id priority =>
      (submit_task task_id description mode project_id priority e).2
  | OpCancel task_id => (cancel_task task_id e).2
  | OpProcessQueue => _process_queue e
  | OpRunWorker task_id =>
      if decide (task_id ∈ _workers e) then run_worker task_id e else e
  end.

Definition run_ops (ops : list Op) (e : Engine) : Engine :=
  foldl (λ e op, apply_op op e) e ops.

End EngineOps.

(** ** engine.py: the remaining operations of the engine object *)

(** The [mode_config] property. *)
Definition engine_mode_config (e : Engine) : ModeConfig :=
  default QUALITY_config (MODE_CONFIGS !! _current_mode e).

(** The dictionary that [switch_mode] returns. *)
Record ModeSwitch := {
  switch_old_mode : string;
  switch_new_mode : string;
  switch_active_tasks : nat;
}.

(** [switch_mode].  The [ValueError] is the exception with its message.
    The change is announced through the connection manager
    ([send_mode_change]), not through [_emit_event]: the event log of the
    engine records nothing. *)
Definition switch_mode (new_mode : string) (e : Engine)
    : outcome ModeSwitch * Engine :=
  match MODE_CONFIGS !! new_mode with
  | None => (Raise (Exception ("Unknown mode: " ++ new_mode)%string), e)
  | Some _ =>
      let old_mode := _current_mode e in
      (Return {| switch_old_mode := old_mode;
                 switch_new_mode := new_mode;
                 switch_active_tasks := size (_active_tasks e) |},
       {| _current_mode := new_mode;
          _active_tasks := _active_tasks e;
          _task_queue := _task_queue e;
          _workers := _workers e;
          _max_workers := _max_workers e; _running := _running e;
          engine_reads := engine_reads e; engine_log := engine_log e |})
  end.

(** [stop]: every worker is cancelled and the worker table cleared.  As
    for [cancel_task], the workers of this model have not begun to run;
    with an empty table the loop of [stop] does nothing.  Stopping while
    a worker is in the middle of its run is outside the model: there the
    [finally] of the awaited worker changes the table under the loop. *)
Definition stop (e : Engine) : Engine := {|
  _current_mode := _current_mode e;
  _active_tasks := _active_tasks e;
  _task_queue := _task_queue e;
  _workers := ∅;
  _max_workers := _max_workers e;
  _running := false;
  engine_reads := engine_reads e;
  engine_log := engine_log e;
|}.

(** The dictionary that [get_stats] returns. *)
Record Stats := {
  stats_current_mode : string;
  stats_active_tasks : nat;
  stats_queued_tasks : nat;
  stats_running_workers : nat;
  stats_max_workers : nat;
}.

Definition get_stats (e : Engine) : Stats := {|
  stats_current_mode := _current_mode e;
  stats_active_tasks := size (_active_tasks e);
  stats_queued_tasks := length (_task_queue e);
  stats_running_workers := size (_workers e);
  stats_max_workers := _max_workers e;
|}.

(** ** api/websocket/manager.py: the connection manager

    The engine announces its events through this object
    ([_emit_event], [switch_mode]).  A socket is an opaque object whose
    [send_json] returns or raises; whether it returns, for the client it
    is stored under, is the oracle [send_ok] of a call.  The manager
    does not look at the messages it passes on. *)

Module manager.

Definition WebSocket := nat.
Definition Metadata := gmap string string.

Record ConnectionManager := {
  _connections : gmap string WebSocket;          (* {client_id: WebSocket} *)
  _subscriptions : gmap string (gset string);    (* {channel: client_ids} *)
  _metadata : gmap string Metadata;              (* {client_id: metadata} *)
}.

(** [__init__]. *)
Definition init : ConnectionManager := {|
  _connections := ∅;
  _subscriptions := ∅;
  _metadata := ∅;
|}.

(** [connect], once [websocket.accept()] has returned. *)
Definition connect (websocket : WebSocket) (client_id : string)
    (metadata : option Metadata) (m : ConnectionManager)
    : ConnectionManager := {|
  _connections := <[client_id := websocket]> (_connections m);
  _subscriptions := _subscriptions m;
  _metadata := <[client_id := default ∅ metadata]> (_metadata m);
|}.

(** [disconnect]. *)
Definition disconnect (client_id : string) (m : ConnectionManager)
    : ConnectionManager := {|
  _connections := delete client_id (_connections m);
  (* Remove from all subscriptions *)
  _subscriptions := (λ subscribers, subscribers ∖ {[client_id]})
                      <$> _subscriptions m;
  _metadata := delete client_id (_metadata m);
|}.

(** [subscribe]. *)
Definition subscribe (client_id channel : string) (m : ConnectionManager)
    : ConnectionManager := {|
  _connections := _connections m;
  _subscriptions :=
    <[channel := {[client_id]} ∪ default ∅ (_subscriptions m !! channel)]>
      (_subscriptions m);
  _metadata := _metadata m;
|}.

(** [unsubscribe]. *)
Definition unsubscribe (client_id channel : string) (m : ConnectionManager)
    : ConnectionManager := {|
  _connections := _connections m;
  _subscriptions :=
    alter (λ subscribers, subscribers ∖ {[client_id]}) channel
      (_subscriptions m);
  _metadata := _metadata m;
|}.

(** [send_personal]. *)
Definition send_personal (send_ok : bool) (client_id : string)
    (m : ConnectionManager) : bool * ConnectionManager :=
  match _connections m !! client_id with
  | None => (false, m)
  | Some websocket =>
      if send_ok then (true, m) else (false, disconnect client_id m)
  end.

(** The clean-up loop [for client_id in disconnected]. *)
Definition disconnect_all (disconnected : list string)
    (m : ConnectionManager) : ConnectionManager :=
  foldl (λ m client_id, disconnect client_id m) m disconnected.

(** [broadcast].  The loop over [self._connections.items()] with its
    counter [sent_count] and its list [disconnected]. *)
Definition broadcast_loop (send_ok : string → bool)
    (items : list (string * WebSocket)) : nat * list string :=
  foldl (λ (acc : nat * list string) (item : string * WebSocket),
           if send_ok item.1 then (S acc.1, acc.2)
           else (acc.1, acc.2 ++ [item.1]))
    (0%nat, []) items.

Definition broadcast (send_ok : string → bool) (m : ConnectionManager)
    : nat * ConnectionManager :=
  let '(sent_count, disconnected) :=
    broadcast_loop send_ok (map_to_list (_connections m)) in
  (sent_count, disconnect_all disconnected m).

(** [broadcast_to_channel].  The loop over the subscribers of the
    channel. *)
Definition channel_loop (send_ok : string → bool)
    (connections : gmap string WebSocket) (subscribers : list string)
    : nat * list string :=
  foldl (λ (acc : nat * list string) (client_id : string),
           match connections !! client_id with
           | Some websocket =>
               if send_ok client_id then (S acc.1, acc.2)
               else (acc.1, acc.2 ++ [client_id])
           | None => acc
           end)
    (0%nat, []) subscribers.

Definition broadcast_to_channel (send_ok : string → bool) (channel : string)
    (m : ConnectionManager) : nat * ConnectionManager :=
  match _subscriptions m !! channel with
  | None => (0%nat, m)
  | Some subscribers =>
      let '(sent_count, disconnected) :=
        channel_loop send_ok (_connections m) (elements subscribers) in
      (sent_count, disconnect_all disconnected m)
  end.

(** [send_task_update]: the channel of the task, then the channel of all
    tasks.  Each of the two broadcasts has its own sends. *)
Definition send_task_update (send_ok send_ok' : string → bool)
    (task_id : string) (m : ConnectionManager) : nat * ConnectionManager :=
  (* Send to task-specific channel *)
  let '(task_count, m) :=
    broadcast_to_channel send_ok ("task:" ++ task_id)%string m in
  (* Also broadcast to global tasks channel *)
  let '(global_count, m) := broadcast_to_channel send_ok' "tasks" m in
  ((task_count + global_count)%nat, m).

(** [send_agent_progress] and [send_mode_change] differ from
    [send_task_update] and [broadcast] in the message only. *)
Definition send_agent_progress (send_ok send_ok' : string → bool)
    (task_id : string) (m : ConnectionManager) : nat * ConnectionManager :=
  send_task_update send_ok send_ok' task_id m.

Definition send_mode_change (send_ok : string → bool)
    (m : ConnectionManager) : nat * ConnectionManager :=
  broadcast send_ok m.

Definition get_connection_count (m : ConnectionManager) : nat :=
  size (_connections m).

Definition get_channel_subscribers (channel : string)
    (m : ConnectionManager) : nat :=
  size (default ∅ (_subscriptions m !! channel)).

(** The dictionary that [get_stats] returns: the number of connections
    and, by channel, the number of subscribers. *)
Definition get_stats (m : ConnectionManager) : nat * gmap string nat :=
  (size (_connections m), size <$> _subscriptions m).

(** The calls on a manager, with what their sends do. *)
Inductive Call :=
  | Connect (websocket : WebSocket) (client_id : string)
      (metadata : option Metadata)
  | Disconnect (client_id : string)
  | Subscribe (client_id channel : string)
  | Unsubscribe (client_id channel : string)
  | SendPersonal (send_ok : bool) (client_id : string)
  | Broadcast (send_ok : string → bool)
  | BroadcastToChannel (send_ok : string → bool) (channel : string)
  | SendTaskUpdate (send_ok send_ok' : string → bool) (task_id : string).

Definition call (k : Call) (m : ConnectionManager) : ConnectionManager :=
  match k with
  | Connect websocket client_id metadata =>
      connect websocket client_id metadata m
  | Disconnect client_id => disconnect client_id m
  | Subscribe client_id channel => subscribe client_id channel m
  | Unsubscribe client_id channel => unsubscribe client_id channel m
  | SendPersonal send_ok client_id => (send_personal send_ok client_id m).2
  | Broadcast send_ok => (broadcast send_ok m).2
  | BroadcastToChannel send_ok channel =>
      (broadcast_to_channel send_ok channel m).2
  | SendTaskUpdate send_ok send_ok' task_id =>
      (send_task_update send_ok send_ok' task_id m).2
  end.

Definition calls (ks : list Call) (m : ConnectionManager)
    : ConnectionManager :=
  foldl (λ m k, call k m) m ks.

End manager.

(** ** services/providers/claude.py: the cost of a generation

    The prices and the cost are floats in the source; here they are
    exact rationals, as the cost of an execution is. *)

Record Pricing := {
  price_input : Qc;
  price_output : Qc;
}.

Definition mk_pricing (input output : Q) : Pricing :=
  {| price_input := Q2Qc input; price_output := Q2Qc output |}.

(** Pricing per 1K tokens. *)
Definition CLAUDE_PRICING : gmap string Pricing :=
  <["claude-opus-4-5-20251101" := mk_pricing (15 # 1000) (75 # 1000)]>
  (<["claude-3-5-sonnet-20241022" := mk_pricing (3 # 1000) (15 # 1000)]>
  (<["claude-3-5-haiku-20241022" := mk_pricing (8 # 10000) (4 # 1000)]>
  (<["claude-3-opus-20240229" := mk_pricing (15 # 1000) (75 # 1000)]>
  (<["claude-3-sonnet-20240229" := mk_pricing (3 # 1000) (15 # 1000)]>
  (<["claude-3-haiku-20240307" := mk_pricing (25 # 100000) (125 # 100000)]>
   ∅))))).

Definition Z2Qc (z : Z) : Qc := Q2Qc (inject_Z z).

(** [ClaudeService.calculate_cost]. *)
Definition calculate_cost (model : string) (tokens_input tokens_output : Z)
    : Qc :=
  let pricing :=
    default (mk_pricing (3 # 1000) (15 # 1000)) (CLAUDE_PRICING !! model) in
  (Z2Qc tokens_input / Z2Qc 1000 * price_input pricing
   + Z2Qc tokens_output / Z2Qc 1000 * price_output pricing)%Qc.

(** The result dictionary that [ClaudeService.generate] builds from the
    text, the model and the token counts of a response. *)
Definition claude_result (content model : string)
    (tokens_input tokens_output : Z) : GenerateResult := {|
  gen_content := Some content;
  gen_model := Some model;
  gen_tokens_input := Some tokens_input;
  gen_tokens_output := Some tokens_output;
  gen_cost := Some (calculate_cost model tokens_input tokens_output);
|}.

(** ** Definitions used to state the properties *)




(** Weakest precondition of a computation of the executor: [Q] holds of
    the value and context it returns, [E] of the exception and context it
    raises. *)
Definition wp {A} (m : M A) (Q : A → Ctx → Prop) (E : exn → Ctx → Prop)
    (c : Ctx) : Prop :=
  match m c with
  | (Return a, c') => Q a c'
  | (Raise e, c') => E e c'
  end.

(** The postcondition of a computation that does not raise. *)
Definition never : exn → Ctx → Prop := λ _ _, False.








(** What an agent run leaves behind, as functions of the provider's
    outcome: the execution record once the run has ended, and the task
    state apart from its phases. *)
Definition outcome_execution (now : Z) (o : ProviderOutcome)
    (e : AgentExecution) : AgentExecution :=
  exec_finish now
    match o with
    | Generated result => exec_succeed result e
    | ProviderError msg => exec_fail msg e
    end.

Definition outcome_state (agent_type : string) (o : ProviderOutcome)
    (s : TaskState) : TaskState :=
  match o with
  | Generated result =>
      let tokens :=
        default 0 (gen_tokens_input result)
        + default 0 (gen_tokens_output result) in
      let cost := default 0%Qc (gen_cost result) in
      set_results
        (<[agent_type :=
             {| result_output := default "" (gen_content result);
                result_tokens := tokens; result_cost := cost |}]>
           (results s))
        (set_estimated_cost (estimated_cost s + cost)%Qc
           (set_tokens_used (tokens_used s + tokens) s))
  | ProviderError _ => s
  end.

(** The agent-level events of a log: event type and agent. *)
Definition agent_event (ev : Event) : option (string * string) :=
  match event_data ev with
  | AgentStartedData _ _ agent => Some (event_type ev, agent)
  | AgentCompletedData _ _ agent _ => Some (event_type ev, agent)
  | _ => None
  end.

Definition agent_events (log : list Event) : list (string * string) :=
  omap agent_event log.

(** The agent-level events of agents run one at a time, in order. *)
Definition one_at_a_time (agents : list string) : list (string * string) :=
  flat_map (λ a, [("agent_started", a); ("agent_completed", a)]) agents.

(** ** A concrete environment and concrete tasks, for examples *)

Definition example_clock (k : nat) : Z := Z.of_nat k.

Definition example_result : GenerateResult := {|
  gen_content := Some "done";
  gen_model := Some "codellama:7b";
  gen_tokens_input := Some 10;
  gen_tokens_output := Some 5;
  gen_cost := Some 1%Qc;
|}.

Definition working_provider (task : string) (pi ei : nat)
    : ProviderOutcome :=
  Generated example_result.

Definition failing_provider (task : string) (pi ei : nat)
    : ProviderOutcome :=
  ProviderError "provider unavailable".

Definition example_schedule (task : string) (pi : nat) : list nat :=
  [1%nat; 0%nat].

(** A COST task ("implement" then "test", one sequential phase) after
    decomposition. *)
Definition example_cost_task : TaskState :=
  set_phases (decompose_phases COST_config)
    (create_initial_task_state "t1" "add a login form" "COST" COST_config
       None 0 0).

Definition example_cost_ctx : Ctx :=
  {| ctx_state := example_cost_task; ctx_reads := 1; ctx_log := [] |}.

Definition example_cost_phase : PhaseState :=
  create_phase_state 1 "Execution" "Execute all agents"
    ["implement"; "test"] false.


(** [m] returns normally and keeps [I]. *)
Definition preserves {A} (I : Ctx → Prop) (m : M A) : Prop :=
  ∀ c, I c → wp m (λ _ c', I c') never c.

(** Every queued id has a task state: the sort key of [submit_task] is
    defined on the whole queue. *)
Definition wf_engine (e : Engine) : Prop :=
  ∀ tid, tid ∈ _task_queue e → is_Some (_active_tasks e !! tid).

(** The mode name that [submit_task] records: [mode or self._current_mode]. *)
Definition submitted_mode (mode : option string) (e : Engine) : string :=
  match mode with
  | Some m => if decide (m = "") then _current_mode e else m
  | None => _current_mode e
  end.

(** An engine that has not been started (so that no worker is ever
    created) holding one submitted task; and the operations that submit
    a SPEED task to a running engine and run it to its end. *)
Definition example_engine : Engine :=
  (submit_task example_clock "t1" "first task" None None 0 init_engine).2.

Definition example_speed_run : list Op :=
  [ OpSubmit "t1" "add a login form" (Some "SPEED") None 0;
    OpProcessQueue;
    OpRunWorker "t1" ].

(** A QUALITY task as [submit_task] creates it, about to be executed. *)
Definition example_quality_ctx : Ctx :=
  {| ctx_state :=
       create_initial_task_state "t1" "add a login form" "QUALITY"
         QUALITY_config None 0 0;
     ctx_reads := 1; ctx_log := [] |}.

(** What the sequential loop over [agents] does to a phase whose
    executions were [phase_executions p]: [n] agents are started, their
    executions [new] are appended, their events [evs] are emitted. *)
Definition sequential_post (pi : nat) (agents : list string) (c : Ctx)
    (p : PhaseState) (c' : Ctx) : Prop :=
  ∃ (n : nat) (new : list AgentExecution) (evs : list Event),
    (n ≤ length agents)%nat ∧
    phases (ctx_state c') !! pi
      = Some (set_phase_executions (phase_executions p ++ new) p) ∧
    ctx_log c' = ctx_log c ++ evs ∧
    map exec_agent_type new = take n agents ∧
    agent_events evs = one_at_a_time (take n agents) ∧
    (∀ k e, new !! k = Some e → exec_status e = "failed" → S k = n) ∧
    ((n < length agents)%nat →
     ∃ e, last new = Some e ∧ exec_status e = "failed").




(** ** Definitions used to state further properties of the engine *)

(** The queue order that [submit_task] establishes: an id never precedes
    one of higher priority. *)
Definition by_priority (active : gmap string TaskState) (a b : string)
    : Prop :=
  priority_of active b ≤ priority_of active a.

(** An operation that is neither a submission under the id [task] nor
    the run of a worker coroutine of [task]. *)
Definition leaves_alone (task : string) (op : Op) : Prop :=
  match op with
  | OpSubmit task' _ _ _ _ => task' ≠ task
  | OpRunWorker task' => task' ≠ task
  | _ => True
  end.

(** The task [task] has ended, with state [s], and has no worker. *)
Definition ended (task : string) (s : TaskState) (e : Engine) : Prop :=
  _active_tasks e !! task = Some s ∧
  terminal (status s) = true ∧
  task ∉ _workers e.

(** What an ended task keeps: everything but the time of a repeated
    cancellation. *)
Definition same_but_completed_at (s s' : TaskState) : Prop :=
  set_completed_at None s' = set_completed_at None s.

(** The engine [example_engine] after its task has been cancelled, and
    the state of that task. *)
Definition example_cancelled_engine : Engine :=
  (cancel_task example_clock "t1" example_engine).2.

Definition example_cancelled_state : TaskState :=
  set_completed_at (Some 1)
    (set_status CANCELLED
       (create_initial_task_state "t1" "first task" "QUALITY" QUALITY_config
          None 0 0)).

(** ** Definitions used to state further properties of the executor *)

(** The updates of a phase outside its executions, and of a task outside
    its phases, totals and results, that the executor makes. *)
Inductive phase_meta_update : (PhaseState → PhaseState) → Prop :=
  | update_phase_status v : phase_meta_update (set_phase_status v)
  | update_phase_started_at v : phase_meta_update (set_phase_started_at v)
  | update_phase_completed_at v :
      phase_meta_update (set_phase_completed_at v).

Inductive task_meta_update : (TaskState → TaskState) → Prop :=
  | update_status v : task_meta_update (set_status v)
  | update_started_at v : task_meta_update (set_started_at v)
  | update_completed_at v : task_meta_update (set_completed_at v)
  | update_current_phase v : task_meta_update (set_current_phase v).

(** What identifies a task and what it was asked to do. *)
Definition identity (s : TaskState) :=
  (task_id s, description s, project_id s, mode s, priority s,
   files_modified s, created_at s, mode_config s).

(** The totals of a task state do not exceed those of another. *)
Definition totals_le (s s' : TaskState) : Prop :=
  tokens_used s ≤ tokens_used s' ∧
  (estimated_cost s ≤ estimated_cost s')%Qc.

(** A provider that reports no negative token count or cost. *)
Definition provider_nonneg (provider : string → nat → nat → ProviderOutcome)
    : Prop :=
  ∀ task pi ei result,
    provider task pi ei = Generated result →
    0 ≤ default 0 (gen_tokens_input result) ∧
    0 ≤ default 0 (gen_tokens_output result) ∧
    (0 ≤ default 0 (gen_cost result))%Qc.

(** The states a subscriber sees, in order, followed by the current
    one. *)
Definition observed (c : Ctx) : list TaskState :=
  map event_state (ctx_log c) ++ [ctx_state c].

(** The state of [c'] and every event logged since [c] carry the
    identity [h]. *)
Definition keeps_identity
    (h : string * string * option string * string * Z * list string
         * Z * ModeConfig) (c c' : Ctx) : Prop :=
  identity (ctx_state c') = h ∧
  ∃ evs, ctx_log c' = ctx_log c ++ evs ∧
         Forall (λ ev, identity (event_state ev) = h) evs.

(** What a task state records about the progress of the task, apart
    from its phases, results and totals. *)
Definition task_meta (s : TaskState) :=
  (status s, current_phase s, errors s, started_at s, completed_at s).

(** Two phase states that differ at most in their executions. *)
Definition same_but_executions (p p' : PhaseState) : Prop :=
  set_phase_executions [] p' = set_phase_executions [] p.

(** While the agents of the phase at [pi] run: the task is as in [s1]
    but for results and totals, and its phases are those of [s1] but for
    the executions of the phase at [pi], which is [p1] otherwise. *)
Definition in_phase (pi : nat) (p1 : PhaseState) (s1 : TaskState) (c : Ctx)
    : Prop :=
  task_meta (ctx_state c) = task_meta s1 ∧
  ∃ es, phases (ctx_state c)
        = <[pi := set_phase_executions es p1]> (phases s1).

(** The status a phase ends with. *)
Definition phase_result (es : list AgentExecution) : PhaseStatus :=
  if bool_decide (Exists (λ e, exec_status e = "failed") es)
  then PHASE_FAILED else PHASE_COMPLETED.

(** The phase [p'] is what a run of the phase [p] leaves: the
    executions [es], the two times, and the status that follows from the
    executions. *)
Definition ran_from (p p' : PhaseState) : Prop :=
  ∃ es started completed,
    p' = set_phase_completed_at (Some completed)
           (set_phase_status (phase_result es)
              (set_phase_started_at (Some started)
                 (set_phase_executions es p))).

(** How the loop over the phases ends: every phase of [ran] completed
    and none is left, or the last phase of [ran] failed and those
    before it completed. *)
Definition all_completed (all ran : list PhaseState) : Prop :=
  length ran = length all ∧
  Forall (λ p, phase_status p = PHASE_COMPLETED) ran.

Definition stopped_at_failure (ran : list PhaseState) : Prop :=
  ∃ before p,
    ran = before ++ [p] ∧
    Forall (λ p, phase_status p = PHASE_COMPLETED) before ∧
    phase_status p = PHASE_FAILED.

(** From the state of [c] through the states of the events logged since
    [c] to the state of [c'], the totals never decrease. *)
Definition totals_grow (c c' : Ctx) : Prop :=
  ∃ evs, ctx_log c' = ctx_log c ++ evs ∧
         StronglySorted totals_le
           ((ctx_state c :: map event_state evs) ++ [ctx_state c']).






(** ** Definitions used to state the properties of the connection
    manager *)

(** The client is subscribed to the channel. *)
Definition subscribed (client_id channel : string)
    (m : manager.ConnectionManager) : Prop :=
  ∃ subscribers,
    manager._subscriptions m !! channel = Some subscribers ∧
    client_id ∈ subscribers.

(** The client is connected. *)
Definition connected (client_id : string) (m : manager.ConnectionManager)
    : Prop :=
  is_Some (manager._connections m !! client_id).

(** What is left of [m] once the clients of [gone] are disconnected:
    they have no connection, no metadata and no subscription, the other
    clients have what they had, and the channels are the same. *)
Definition without (gone : string → Prop) (m m' : manager.ConnectionManager)
    : Prop :=
  (∀ client_id,
     gone client_id →
     manager._connections m' !! client_id = None ∧
     manager._metadata m' !! client_id = None ∧
     ∀ channel, ¬ subscribed client_id channel m') ∧
  (∀ client_id,
     ¬ gone client_id →
     manager._connections m' !! client_id
       = manager._connections m !! client_id ∧
     manager._metadata m' !! client_id = manager._metadata m !! client_id ∧
     ∀ channel, subscribed client_id channel m'
                ↔ subscribed client_id channel m) ∧
  dom (manager._subscriptions m') = dom (manager._subscriptions m).

#[global] Instance connected_dec client_id m :
  Decision (connected client_id m) := is_Some_dec _.

(** The subscribers of a channel, none if the channel is not known. *)
Definition subscribers_of (channel : string)
    (m : manager.ConnectionManager) : gset string :=
  default ∅ (manager._subscriptions m !! channel).

(** The connected subscribers of a channel of [m] to which a send
    fails. *)
Definition failed_on (send_ok : string → bool) (channel : string)
    (m : manager.ConnectionManager) (client_id : string) : Prop :=
  client_id ∈ subscribers_of channel m ∧
  connected client_id m ∧
  send_ok client_id = false.

#[global] Instance failed_on_dec send_ok channel m client_id :
  Decision (failed_on send_ok channel m client_id) := and_dec _ _.

(** The channel of a task. *)
Definition task_channel (task_id : string) : string :=
  ("task:" ++ task_id)%string.

(** * Verified properties *)

(** ** The decomposer *)






(** C6, as stated, fails: the single phase that the decomposer builds for
    the SPEED mode has its parallel flag set. *)
Lemma decompose_speed_parallel_counterexample :
  decompositionDepth SPEED_config = Some "shallow" ∧
  requiredAgents SPEED_config = Some ["implement"] ∧
  ¬ ∃ p, decompose_phases SPEED_config = [p] ∧
         phase_name p = "Execution" ∧
         phase_agents p = ["implement"] ∧
         phase_parallel p = false.
Proof.
  split; [reflexivity|]. split; [reflexivity|].
  intros (p & Hp & _ & _ & Hpar).
  vm_compute in Hp. injection Hp as <-. discriminate Hpar.
Qed.

(** C6, amended.  For a shallow mode with exactly one required agent the
    decomposer builds exactly one phase, numbered 1 and named
    "Execution", holding that agent, whose parallel flag is set iff the
    parallelization level is aggressive. *)
Theorem decompose_shallow_single (mode_config : ModeConfig) (agent : string) :
  decompositionDepth mode_config = Some "shallow" →
  requiredAgents mode_config = Some [agent] →
  decompose_phases mode_config
  = [ create_phase_state 1 "Execution" "Execute all agents" [agent]
        (bool_decide (parallelizationLevel mode_config = Some "aggressive")) ].
Proof.
  intros Hshallow Hreq. unfold decompose_phases.
  rewrite Hshallow, Hreq. rewrite decide_True by reflexivity.
  reflexivity.
Qed.

(** An instance of C6, amended: the SPEED mode. *)
Lemma decompose_shallow_single_witness :
  decompositionDepth SPEED_config = Some "shallow" ∧
  requiredAgents SPEED_config = Some ["implement"] ∧
  decompose_phases SPEED_config
  = [ create_phase_state 1 "Execution" "Execute all agents" ["implement"]
        true ].
Proof.
  split; [reflexivity|]. split; [reflexivity|].
  rewrite (decompose_shallow_single SPEED_config "implement");
    reflexivity.
Defined.

(** ** Reasoning rules for the executor monad *)

Section WpRules.

Context {A B : Type}.
Implicit Types (Q : A → Ctx → Prop) (E : exn → Ctx → Prop) (c : Ctx).

Lemma wp_ret (a : A) Q E c : Q a c → wp (mret a) Q E c.
Proof. done. Qed.

Lemma wp_bind (m : M A) (k : A → M B) (R : B → Ctx → Prop) E c :
  wp m (λ a, wp (k a) R E) E c → wp (m ≫= k) R E c.
Proof.
  unfold wp, mbind, M_bind. by destruct (m c) as [[a|e] c'].
Qed.

Lemma wp_try_except (m : M A) (h : exn → M A) Q E c :
  wp m Q (λ e, wp (h e) Q E) c → wp (try_except m h) Q E c.
Proof.
  unfold wp, try_except. by destruct (m c) as [[a|e] c'].
Qed.

Lemma wp_try_finally (m : M A) (f : M unit) Q E c :
  wp m (λ a, wp f (λ _, Q a) E) (λ e, wp f (λ _, E e) E) c →
  wp (try_finally m f) Q E c.
Proof.
  unfold wp, try_finally.
  destruct (m c) as [[a|e] c']; by destruct (f c') as [[[]|e'] c''].
Qed.

Lemma wp_mono (m : M A) Q Q' E E' c :
  wp m Q E c →
  (∀ a c', Q a c' → Q' a c') → (∀ e c', E e c' → E' e c') →
  wp m Q' E' c.
Proof.
  unfold wp. destruct (m c) as [[a|e] c']; eauto.
Qed.

Lemma wp_post (m : M A) Q c :
  wp m Q never c → ∃ a c', m c = (Return a, c') ∧ Q a c'.
Proof.
  unfold wp, never. destruct (m c) as [[a|e] c']; [eauto|done].
Qed.

End WpRules.

Lemma wp_get_state Q E c : Q (ctx_state c) c → wp get_state Q E c.
Proof. done. Qed.

Lemma wp_modify_state f Q E c :
  Q () {| ctx_state := f (ctx_state c); ctx_reads := ctx_reads c;
          ctx_log := ctx_log c |} →
  wp (modify_state f) Q E c.
Proof. done. Qed.

Lemma wp_modify_phase pi f Q E c :
  Q () {| ctx_state := set_phases (alter f pi (phases (ctx_state c)))
                         (ctx_state c);
          ctx_reads := ctx_reads c; ctx_log := ctx_log c |} →
  wp (modify_phase pi f) Q E c.
Proof. done. Qed.

Lemma wp_emit_event event data Q E c :
  Q () {| ctx_state := ctx_state c; ctx_reads := ctx_reads c;
          ctx_log := ctx_log c ++
            [ {| event_type := event; event_data := data;
                 event_state := ctx_state c |} ] |} →
  wp (_emit_event event data) Q E c.
Proof. done. Qed.

Lemma wp_utcnow clock Q E c :
  Q (clock (ctx_reads c))
    {| ctx_state := ctx_state c; ctx_reads := S (ctx_reads c);
       ctx_log := ctx_log c |} →
  wp (utcnow clock) Q E c.
Proof. done. Qed.

Lemma wp_generate provider pi ei Q E c :
  match provider (task_id (ctx_state c)) pi ei with
  | Generated result => Q result c
  | ProviderError msg => E (Exception msg) c
  end →
  wp (generate provider pi ei) Q E c.
Proof.
  unfold wp, generate.
  by destruct (provider (task_id (ctx_state c)) pi ei).
Qed.

(** One step of symbolic execution of straight-line monadic code. *)
Ltac wp_step :=
  lazymatch goal with
  | |- wp (mbind _ _) _ _ _ => apply wp_bind
  | |- wp (mret _) _ _ _ => apply wp_ret
  | |- wp (try_finally _ _) _ _ _ => apply wp_try_finally
  | |- wp (try_except _ _) _ _ _ => apply wp_try_except
  | |- wp get_state _ _ _ => apply wp_get_state
  | |- wp (modify_state _) _ _ _ => apply wp_modify_state
  | |- wp (modify_phase _ _) _ _ _ => apply wp_modify_phase
  | |- wp (modify_execution _ _ _) _ _ _ =>
      unfold modify_execution; apply wp_modify_phase
  | |- wp (_emit_event _ _) _ _ _ => apply wp_emit_event
  | |- wp (emit_state _) _ _ _ => unfold emit_state
  | |- wp (emit_phase _ _) _ _ _ => unfold emit_phase
  | |- wp (utcnow _) _ _ _ => apply wp_utcnow
  | |- wp (generate _ _ _) _ _ _ => apply wp_generate
  end.

Ltac wp_steps := repeat (wp_step; cbn [ctx_state ctx_reads ctx_log]).

(** ** Accounting: sums of tokens and cost under in-place updates *)












(** ** One agent run *)

Lemma alter_middle {A} (f : A → A) (l1 l2 : list A) (x : A) :
  alter f (length l1) (l1 ++ x :: l2) = l1 ++ f x :: l2.
Proof. induction l1 as [|y l1 IH]; [done|]. cbn. f_equal. apply IH. Qed.

Lemma insert_middle {A} (l1 l2 : list A) (x y : A) :
  <[length l1 := y]> (l1 ++ x :: l2) = l1 ++ y :: l2.
Proof. induction l1 as [|z l1 IH]; [done|]. cbn. f_equal. apply IH. Qed.

Lemma lookup_middle {A} (l1 l2 : list A) (x : A) :
  (l1 ++ x :: l2) !! length l1 = Some x.
Proof. by apply list_lookup_middle. Qed.

Lemma phase_at_lookup pi s p : phases s !! pi = Some p → phase_at pi s = p.
Proof. unfold phase_at. by intros ->. Qed.

Lemma lookup_insert_phase (phs : list PhaseState) pi p p' :
  phs !! pi = Some p → <[pi := p']> phs !! pi = Some p'.
Proof. intros H. apply list_lookup_insert_eq. by eapply lookup_lt_Some. Qed.

Lemma wp_from_eq {A} (m : M A) a c c' Q E :
  m c = (Return a, c') → Q a c' → wp m Q E c.
Proof. unfold wp. by intros ->. Qed.

(** Splits a list at a position known to hold an element. *)
Ltac split_at H :=
  let l1 := fresh "before" in
  let l2 := fresh "after" in
  let Heq := fresh "Heq" in
  let Hlen := fresh "Hlen" in
  apply list_elem_of_split_length in H as (l1 & l2 & Heq & Hlen).

Ltac middle_simpl :=
  repeat (progress (rewrite ?alter_middle, ?insert_middle, ?lookup_middle);
          cbn).

Section Agent.

Variable clock : nat → Z.
Variable provider : string → nat → nat → ProviderOutcome.

Lemma start_agent_eq pi a c p :
  phases (ctx_state c) !! pi = Some p →
  let s := ctx_state c in
  let e := exec_start (clock (ctx_reads c)) (create_agent_execution a) in
  let s' :=
    set_phases
      (<[pi := set_phase_executions (phase_executions p ++ [e]) p]>
         (phases s)) s in
  start_agent clock pi a c =
  (Return (length (phase_executions p)),
   {| ctx_state := s'; ctx_reads := S (ctx_reads c);
      ctx_log := ctx_log c ++
        [ {| event_type := "agent_started";
             event_data := AgentStartedData (task_id s) (phase_number p) a;
             event_state := s' |} ] |}).
Proof.
  intros Hpi. destruct c as [s reads log].
  cbn [ctx_state ctx_reads ctx_log] in *.
  destruct s as [tid descr proj md st prio phs cur res files errs toks cost
                  created started completed mc]; cbn [phases task_id] in *.
  split_at Hpi. subst.
  unfold start_agent, modify_phase, modify_state, get_state, utcnow,
    _emit_event, mbind, M_bind, mret, M_ret, phase_at.
  middle_simpl. reflexivity.
Qed.

Lemma finish_agent_eq pi a ei c p e0 :
  phases (ctx_state c) !! pi = Some p →
  phase_executions p !! ei = Some e0 →
  let s := ctx_state c in
  let o := provider (task_id s) pi ei in
  let e := outcome_execution (clock (ctx_reads c)) o e0 in
  let s' :=
    set_phases
      (<[pi := set_phase_executions (<[ei := e]> (phase_executions p)) p]>
         (phases s))
      (outcome_state a o s) in
  finish_agent clock provider pi a ei c =
  (Return (),
   {| ctx_state := s'; ctx_reads := S (ctx_reads c);
      ctx_log := ctx_log c ++
        [ {| event_type := "agent_completed";
             event_data :=
               AgentCompletedData (task_id s) (phase_number p) a e;
             event_state := s' |} ] |}).
Proof.
  intros Hpi Hei. destruct c as [s reads log].
  cbn [ctx_state ctx_reads ctx_log] in *.
  destruct s as [tid descr proj md st prio phs cur res files errs toks cost
                  created started completed mc]; cbn [phases task_id] in *.
  destruct p as [pnum pname pdescr pst ppar pagents pexecs pstart pend];
    cbn [phase_executions phase_number] in *.
  split_at Hpi. split_at Hei. subst.
  unfold finish_agent, try_finally, try_except, generate, modify_execution,
    modify_phase, modify_state, get_state, utcnow, _emit_event, mbind,
    M_bind, execution_at, phase_at.
  cbn [ctx_state task_id].
  destruct (provider tid _ _) as [r|msg]; middle_simpl; reflexivity.
Qed.

Lemma execute_agent_eq pi a c p :
  phases (ctx_state c) !! pi = Some p →
  let s := ctx_state c in
  let o := provider (task_id s) pi (length (phase_executions p)) in
  let e0 := exec_start (clock (ctx_reads c)) (create_agent_execution a) in
  let e := outcome_execution (clock (S (ctx_reads c))) o e0 in
  let s0 :=
    set_phases
      (<[pi := set_phase_executions (phase_executions p ++ [e0]) p]>
         (phases s)) s in
  let s' :=
    set_phases
      (<[pi := set_phase_executions (phase_executions p ++ [e]) p]>
         (phases s))
      (outcome_state a o s) in
  _execute_agent clock provider pi a c =
  (Return (),
   {| ctx_state := s'; ctx_reads := S (S (ctx_reads c));
      ctx_log := ctx_log c ++
        [ {| event_type := "agent_started";
             event_data := AgentStartedData (task_id s) (phase_number p) a;
             event_state := s0 |};
          {| event_type := "agent_completed";
             event_data :=
               AgentCompletedData (task_id s) (phase_number p) a e;
             event_state := s' |} ] |}).
Proof.
  intros Hpi. cbn zeta. unfold _execute_agent, mbind, M_bind.
  rewrite (start_agent_eq pi a c p Hpi). cbn zeta.
  erewrite finish_agent_eq; cbn [ctx_state ctx_reads ctx_log phases
    set_phases].
  2: { by eapply lookup_insert_phase. }
  2: { cbn [phase_executions set_phase_executions]. apply lookup_middle. }
  cbn [task_id set_phases phase_number set_phase_executions
         phase_executions].
  rewrite list_insert_insert_eq, insert_middle, <- (assoc_L (++)).
  destruct (provider _ _ _); reflexivity.
Qed.

End Agent.

(** ** Sequential phases *)


Lemma exec_agent_type_outcome now now' o a :
  exec_agent_type
    (outcome_execution now o (exec_start now' (create_agent_execution a))) = a.
Proof. by destruct o. Qed.

Lemma agent_events_app log1 log2 :
  agent_events (log1 ++ log2) = agent_events log1 ++ agent_events log2.
Proof. apply omap_app. Qed.

Section Sequential.

Variable clock : nat → Z.
Variable provider : string → nat → nat → ProviderOutcome.
Variable gather_order : string → nat → list nat.

Lemma run_sequential_spec pi agents c p :
  phases (ctx_state c) !! pi = Some p →
  wp (run_sequential clock provider pi agents)
     (λ _ c', sequential_post pi agents c p c') never c.
Proof.
  revert c p. induction agents as [|a rest IH]; intros c p Hpi.
  - apply wp_ret. exists 0%nat, [], []. cbn.
    rewrite !app_nil_r. destruct p. repeat split; try done; try lia.
  - cbn [run_sequential]. wp_step.
    eapply wp_from_eq; [by apply execute_agent_eq|]. cbn zeta.
    set (o := provider _ _ _).
    set (e := outcome_execution _ o _).
    set (e0 := exec_start _ _).
    set (p1 := set_phase_executions (phase_executions p ++ [e]) p).
    wp_steps.
    assert (Hp1 : <[pi := p1]> (phases (ctx_state c)) !! pi = Some p1)
      by (by eapply lookup_insert_phase).
    rewrite (phase_at_lookup pi _ p1) by done.
    cbn [phase_executions p1 set_phase_executions]. rewrite last_snoc.
    destruct (decide (exec_status e = "failed")) as [Hfail|Hok].
    + apply wp_ret. exists 1%nat, [e]. eexists. cbn [length take ctx_log].
      split; [lia|]. split; [done|]. split; [done|].
      split; [cbn [map]; f_equal; unfold e; apply exec_agent_type_outcome|].
      split; [reflexivity|]. split.
      * intros [|k] e' Hk; [done|]. by destruct k.
      * intros _. by exists e.
    + eapply wp_mono; [by apply (IH _ p1)| |done].
      intros _ c' (n & new & evs & Hn & Hph & Hlog & Hty & Hev & Hstop & Hlast).
      exists (S n), (e :: new). eexists (_ ++ evs).
      cbn [length take ctx_log ctx_state phases set_phases] in *.
      split; [lia|]. split.
      { rewrite Hph. unfold p1. cbn. by rewrite <- (assoc_L (++)). }
      split; [by rewrite Hlog, <- (assoc_L (++))|].
      split;
        [cbn [map]; f_equal; [unfold e; apply exec_agent_type_outcome|done]|].
      split.
      { rewrite agent_events_app, Hev. reflexivity. }
      split.
      * intros [|k] e' Hk Hfailed; cbn in Hk.
        -- by injection Hk as ->.
        -- f_equal. by eapply Hstop.
      * intros Hlt. destruct Hlast as (e' & He' & Hfailed); [lia|].
        exists e'. split; [|done].
        destruct new as [|x new]; [done|]. by cbn in *.
Qed.

(** C8.  In a phase that runs sequentially (its parallel flag is unset,
    or it has at most one agent), the executions appended to the phase and
    the agent events emitted are those of a prefix of the phase's agents,
    one agent at a time in declared order; an execution that ends failed
    is the last one, so no later agent gets an execution record or an
    [agent_started] event; and the prefix is cut short only after a
    failed execution. *)
Theorem sequential_phase_stops_at_failure pi c p :
  phases (ctx_state c) !! pi = Some p →
  phase_parallel p = false ∨ (length (phase_agents p) ≤ 1)%nat →
  ∃ c' p',
    _execute_phase clock provider gather_order pi c = (Return (), c') ∧
    phases (ctx_state c') !! pi = Some p' ∧
    ∃ n new evs,
      (n ≤ length (phase_agents p))%nat ∧
      phase_executions p' = phase_executions p ++ new ∧
      ctx_log c' = ctx_log c ++ evs ∧
      map exec_agent_type new = take n (phase_agents p) ∧
      agent_events evs = one_at_a_time (take n (phase_agents p)) ∧
      (∀ k e, new !! k = Some e → exec_status e = "failed" → S k = n) ∧
      ((n < length (phase_agents p))%nat →
       ∃ e, last new = Some e ∧ exec_status e = "failed").
Proof.
  intros Hpi Hseq.
  match goal with
  | |- ∃ c' p', _ = _ ∧ @?Q c' p' =>
      cut (wp (_execute_phase clock provider gather_order pi)
             (λ _ c', ∃ p', Q c' p') never c)
  end.
  { intros H. apply wp_post in H as ([] & c' & Heq & p' & H). eauto. }
  assert (Hbranch : phase_parallel p
            && bool_decide (1 < length (phase_agents p))%nat = false).
  { destruct Hseq as [->|Hlen]; [done|].
    rewrite bool_decide_eq_false_2 by lia. apply andb_false_r. }
  unfold _execute_phase. wp_steps.
  set (p1 := set_phase_started_at (Some (clock (ctx_reads c)))
               (set_phase_status PHASE_RUNNING p)).
  match goal with
  | |- context [phase_at pi ?s] =>
      assert (Hp1 : phases s !! pi = Some p1)
        by (cbn [phases set_phases]; by rewrite !list_lookup_alter_eq, Hpi);
      rewrite !(phase_at_lookup pi s p1 Hp1)
  end.
  cbn [p1 phase_parallel phase_agents set_phase_started_at set_phase_status].
  rewrite Hbranch.
  eapply wp_mono;
    [by apply (run_sequential_spec pi _ _ p1)| |done].
  intros _ c2 (n & new & evs & Hn & Hph & Hlog & Hty & Hev & Hstop & Hlast).
  wp_steps.
  eexists. split.
  { cbn [phases set_phases ctx_state].
    rewrite !list_lookup_alter_eq, Hph. reflexivity. }
  exists n, new. eexists. split; [done|]. split; [reflexivity|].
  split.
  { rewrite Hlog. cbn [ctx_log]. rewrite <- !(assoc_L (++)). reflexivity. }
  split; [done|]. split; [|done].
  rewrite !agent_events_app, Hev. cbn. apply app_nil_r.
Qed.

End Sequential.

(** An instance of C8: the phase of a COST task with a failing
    provider. *)
Lemma sequential_phase_stops_at_failure_witness :
  ∃ c' p',
    _execute_phase example_clock failing_provider example_schedule 0
      example_cost_ctx = (Return (), c') ∧
    phases (ctx_state c') !! 0%nat = Some p' ∧
    ∃ n new evs,
      (n ≤ length (phase_agents example_cost_phase))%nat ∧
      phase_executions p' = phase_executions example_cost_phase ++ new ∧
      ctx_log c' = ctx_log example_cost_ctx ++ evs ∧
      map exec_agent_type new = take n (phase_agents example_cost_phase) ∧
      agent_events evs
        = one_at_a_time (take n (phase_agents example_cost_phase)) ∧
      (∀ k e, new !! k = Some e → exec_status e = "failed" → S k = n) ∧
      ((n < length (phase_agents example_cost_phase))%nat →
       ∃ e, last new = Some e ∧ exec_status e = "failed").
Proof.
  apply (sequential_phase_stops_at_failure example_clock failing_provider
           example_schedule 0 example_cost_ctx example_cost_phase).
  - reflexivity.
  - left. reflexivity.
Defined.

(** ** Provider errors *)

Section ProviderErrors.

Variable clock : nat → Z.
Variable provider : string → nat → nat → ProviderOutcome.

(** C9.  When the provider call of an agent run raises, the run ends
    normally, the execution record appended to the phase has status
    "failed" and carries the error message, and the token counter, the
    cost accumulator and the results mapping of the task are what they
    were before the run. *)
Theorem provider_error_leaves_totals pi agent_type c p msg :
  phases (ctx_state c) !! pi = Some p →
  provider (task_id (ctx_state c)) pi (length (phase_executions p))
    = ProviderError msg →
  ∃ c' e,
    _execute_agent clock provider pi agent_type c = (Return (), c') ∧
    phase_executions (phase_at pi (ctx_state c'))
      = phase_executions p ++ [e] ∧
    exec_agent_type e = agent_type ∧
    exec_status e = "failed" ∧
    exec_error e = Some msg ∧
    tokens_used (ctx_state c') = tokens_used (ctx_state c) ∧
    estimated_cost (ctx_state c') = estimated_cost (ctx_state c) ∧
    results (ctx_state c') = results (ctx_state c).
Proof.
  intros Hpi Hprov.
  rewrite (execute_agent_eq clock provider pi agent_type c p Hpi).
  cbn zeta. rewrite Hprov.
  eexists _, (outcome_execution _ (ProviderError msg)
                (exec_start _ (create_agent_execution agent_type))).
  split; [reflexivity|].
  cbn [ctx_state]. split.
  { unfold phase_at. cbn [phases set_phases].
    erewrite lookup_insert_phase by done. reflexivity. }
  repeat split.
Qed.

End ProviderErrors.

(** An instance of C9: the first agent of a COST task. *)
Lemma provider_error_leaves_totals_witness :
  ∃ c' e,
    _execute_agent example_clock failing_provider 0 "implement"
      example_cost_ctx = (Return (), c') ∧
    phase_executions (phase_at 0 (ctx_state c'))
      = phase_executions example_cost_phase ++ [e] ∧
    exec_agent_type e = "implement" ∧
    exec_status e = "failed" ∧
    exec_error e = Some "provider unavailable" ∧
    tokens_used (ctx_state c') = tokens_used (ctx_state example_cost_ctx) ∧
    estimated_cost (ctx_state c')
      = estimated_cost (ctx_state example_cost_ctx) ∧
    results (ctx_state c') = results (ctx_state example_cost_ctx).
Proof.
  apply (provider_error_leaves_totals example_clock failing_provider 0
           "implement" example_cost_ctx example_cost_phase
           "provider unavailable").
  - reflexivity.
  - reflexivity.
Defined.

(** ** The accounting invariant along an agent run *)







Section AccountingAgent.

Variable clock : nat → Z.
Variable provider : string → nat → nat → ProviderOutcome.




End AccountingAgent.

(** ** The accounting invariant along a phase *)

Lemma preserves_ret {A} (I : Ctx → Prop) (a : A) : preserves I (mret a).
Proof. intros c Hc. by apply wp_ret. Qed.

Lemma preserves_bind {A B} (I : Ctx → Prop) (m : M A) (k : A → M B) :
  preserves I m → (∀ a, preserves I (k a)) → preserves I (m ≫= k).
Proof.
  intros Hm Hk c Hc. apply wp_bind.
  eapply wp_mono; [by apply Hm| |done]. intros a c' Hc'. by apply Hk.
Qed.

Lemma preserves_try_except {A} (I : Ctx → Prop) (m : M A) h :
  preserves I m → preserves I (try_except m h).
Proof.
  intros Hm c Hc. apply wp_try_except.
  eapply wp_mono; [by apply Hm|done|done].
Qed.

Lemma preserves_try_finally {A} (I : Ctx → Prop) (m : M A) f :
  preserves I m → preserves I f → preserves I (try_finally m f).
Proof.
  intros Hm Hf c Hc. apply wp_try_finally.
  eapply wp_mono; [by apply Hm| |done]. intros a c' Hc'. by apply Hf.
Qed.

Lemma preserves_get_state (I : Ctx → Prop) : preserves I get_state.
Proof. intros c Hc. by apply wp_get_state. Qed.








Section AccountingPhase.

Variable clock : nat → Z.
Variable provider : string → nat → nat → ProviderOutcome.
Variable gather_order : string → nat → list nat.





End AccountingPhase.

(** ** Parallel phases: every started agent is finished exactly once *)





Section AccountingGather.

Variable clock : nat → Z.
Variable provider : string → nat → nat → ProviderOutcome.
Variable gather_order : string → nat → list nat.





End AccountingGather.

(** ** The accounting invariant along a task *)



Section AccountingTask.

Variable clock : nat → Z.
Variable provider : string → nat → nat → ProviderOutcome.
Variable gather_order : string → nat → list nat.



End AccountingTask.



(** ** The engine: submission *)

Lemma insert_by_priority_perm active tid l :
  insert_by_priority active tid l ≡ₚ tid :: l.
Proof.
  induction l as [|y l IH]; [done|]. cbn [insert_by_priority].
  case_decide; [|done]. rewrite IH. apply Permutation_swap.
Qed.

Lemma sort_by_priority_perm active queue :
  sort_by_priority active queue ≡ₚ queue.
Proof.
  induction queue as [|tid queue IH]; [done|].
  cbn. rewrite insert_by_priority_perm. by f_equiv.
Qed.

Lemma wf_engine_init : wf_engine init_engine.
Proof. intros tid Htid. by apply elem_of_nil in Htid. Qed.

Lemma wf_engine_new : wf_engine new_engine.
Proof. intros tid Htid. by apply elem_of_nil in Htid. Qed.

Section Submission.

Variable clock : nat → Z.

(** On an engine whose queued ids all have a state, [submit_task] returns
    the initial state of the task, stores it under the id (over whatever
    was there) and adds the id to the queue. *)
Lemma submit_task_returns e task description mode project priority :
  wf_engine e →
  let m := submitted_mode mode e in
  let state :=
    create_initial_task_state task description m
      (default QUALITY_config (MODE_CONFIGS !! m)) project priority
      (clock (engine_reads e)) in
  ∃ e',
    submit_task clock task description mode project priority e
      = (Return state, e') ∧
    _active_tasks e' = <[task := state]> (_active_tasks e) ∧
    _task_queue e' ≡ₚ task :: _task_queue e ∧
    _workers e' = _workers e.
Proof.
  intros Hwf m state. unfold submit_task. fold (submitted_mode mode e).
  fold m. fold state.
  destruct (list_find _ _) as [[i tid]|] eqn:Hfind.
  - apply list_find_Some in Hfind as (Hi & Hnone & _).
    apply list_elem_of_lookup_2, elem_of_app in Hi as [Hq|Hlast].
    + destruct (decide (tid = task)) as [->|Hne].
      * by rewrite lookup_insert_eq in Hnone.
      * rewrite lookup_insert_ne in Hnone by done.
        destruct (Hwf tid Hq) as [s Hs]. by rewrite Hs in Hnone.
    + apply list_elem_of_singleton in Hlast as ->.
      by rewrite lookup_insert_eq in Hnone.
  - eexists. split; [reflexivity|]. cbn. split; [done|]. split; [|done].
    rewrite sort_by_priority_perm.
    by rewrite Permutation_app_comm.
Qed.

(** C3, as stated, fails: a submission naming the unregistered mode
    "TURBO" raises nothing; it returns a task state and stores it under
    an id that had none. *)
Lemma submit_unknown_mode_counterexample :
  MODE_CONFIGS !! "TURBO" = None ∧
  _active_tasks init_engine !! "t1" = None ∧
  ∃ state e',
    submit_task example_clock "t1" "add a login form" (Some "TURBO") None 0
      init_engine
    = (Return state, e') ∧
    _active_tasks e' !! "t1" = Some state.
Proof.
  split; [reflexivity|]. split; [reflexivity|].
  eexists _, _. split; [reflexivity|]. vm_compute. reflexivity.
Qed.

(** C3, amended.  A submission whose mode is a non-empty name that is
    not registered does not fail: on an engine whose queued ids all have
    a state it returns a pending task state that records the mode name
    as given and caches the config of the QUALITY mode, and stores that
    state under the task id.  (The empty name counts as no mode: [mode
    or self._current_mode] takes the current mode of the engine.) *)
Theorem submit_unknown_mode_falls_back e task description m project
    priority :
  wf_engine e →
  m ≠ "" →
  MODE_CONFIGS !! m = None →
  ∃ state e',
    submit_task clock task description (Some m) project priority e
      = (Return state, e') ∧
    status state = PENDING ∧
    mode state = m ∧
    mode_config state = QUALITY_config ∧
    _active_tasks e' !! task = Some state.
Proof.
  intros Hwf Hm Hnone.
  destruct (submit_task_returns e task description (Some m) project priority
              Hwf) as (e' & Heq & Hactive & _).
  cbn [submitted_mode] in Heq, Hactive.
  rewrite decide_False in Heq, Hactive by done.
  rewrite Hnone in Heq, Hactive.
  eexists _, e'. split; [exact Heq|]. repeat split.
  rewrite Hactive. apply lookup_insert_eq.
Qed.

(** C4, as stated, fails: a second submission under the id of a live
    task raises nothing; it returns a state, and that state replaces the
    first one. *)
Lemma submit_duplicate_counterexample :
  ∃ first e1 second e2,
    submit_task example_clock "t1" "first task" None None 0 init_engine
      = (Return first, e1) ∧
    _active_tasks e1 !! "t1" = Some first ∧
    submit_task example_clock "t1" "second task" None None 0 e1
      = (Return second, e2) ∧
    _active_tasks e2 !! "t1" = Some second ∧
    description first = "first task" ∧
    description second = "second task".
Proof.
  eexists _, _, _, _. split; [reflexivity|].
  split; [vm_compute; reflexivity|]. split; [vm_compute; reflexivity|].
  split; [vm_compute; reflexivity|]. split; reflexivity.
Qed.

(** C4, amended.  A submission under the id of a task that already has a
    state does not fail: on an engine whose queued ids all have a state
    it returns the initial, pending state of a new task, that state
    replaces the one stored under the id, and the id is added to the
    queue once more. *)
Theorem submit_duplicate_replaces e task description mode project priority
    old :
  wf_engine e →
  _active_tasks e !! task = Some old →
  ∃ state e',
    submit_task clock task description mode project priority e
      = (Return state, e') ∧
    state
      = create_initial_task_state task description (submitted_mode mode e)
          (default QUALITY_config (MODE_CONFIGS !! submitted_mode mode e))
          project priority (clock (engine_reads e)) ∧
    _active_tasks e' !! task = Some state ∧
    (∀ other, other ≠ task →
              _active_tasks e' !! other = _active_tasks e !! other) ∧
    _task_queue e' ≡ₚ task :: _task_queue e.
Proof.
  intros Hwf Hold.
  destruct (submit_task_returns e task description mode project priority
              Hwf) as (e' & Heq & Hactive & Hqueue & _).
  eexists _, e'. split; [exact Heq|]. split; [reflexivity|].
  rewrite Hactive. split; [apply lookup_insert_eq|]. split; [|done].
  intros other Hne. by apply lookup_insert_ne.
Qed.

End Submission.

(** An instance of C3, amended: the mode "TURBO" on a new engine. *)
Lemma submit_unknown_mode_falls_back_witness :
  ∃ state e',
    submit_task example_clock "t1" "add a login form" (Some "TURBO") None 0
      new_engine
    = (Return state, e') ∧
    status state = PENDING ∧
    mode state = "TURBO" ∧
    mode_config state = QUALITY_config ∧
    _active_tasks e' !! "t1" = Some state.
Proof.
  apply (submit_unknown_mode_falls_back example_clock new_engine "t1"
           "add a login form" "TURBO" None 0).
  - apply wf_engine_new.
  - discriminate.
  - reflexivity.
Defined.

(** ** The engine: every queued id keeps a state *)

Lemma list_remove_first_subseteq x l y :
  y ∈ list_remove_first x l → y ∈ l.
Proof.
  induction l as [|z l IH]; [done|]. cbn [list_remove_first].
  case_decide.
  - by right.
  - intros [->|Hy]%elem_of_cons; [by left|right; by apply IH].
Qed.

Lemma start_workers_queue_subseteq active max_workers queue workers y :
  y ∈ (start_workers active max_workers queue workers).1 → y ∈ queue.
Proof.
  revert workers. induction queue as [|tid queue IH]; intros workers.
  - done.
  - cbn [start_workers]. case_decide; [done|].
    destruct (active !! tid) as [state|]; [case_decide|];
      intros Hy; right; by eapply IH.
Qed.

Section WellFormed.

Variable clock : nat → Z.
Variable provider : string → nat → nat → ProviderOutcome.
Variable gather_order : string → nat → list nat.

Lemma wf_engine_submit e task description mode project priority :
  wf_engine e →
  wf_engine (submit_task clock task description mode project priority e).2.
Proof.
  intros Hwf.
  destruct (submit_task_returns clock e task description mode project
              priority Hwf) as (e' & -> & Hactive & Hqueue & _).
  intros tid Htid. cbn [snd] in *. rewrite Hactive.
  rewrite Hqueue in Htid. apply elem_of_cons in Htid as [->|Htid].
  - rewrite lookup_insert_eq. by eexists.
  - destruct (decide (task = tid)) as [->|Hne].
    + rewrite lookup_insert_eq. by eexists.
    + rewrite lookup_insert_ne by done. by apply Hwf.
Qed.

Lemma wf_engine_cancel e task :
  wf_engine e → wf_engine (cancel_task clock task e).2.
Proof.
  intros Hwf. unfold cancel_task.
  destruct (_active_tasks e !! task) as [state|] eqn:Hstate; [|done].
  case_decide; [done|]. intros tid Htid. cbn in *.
  apply list_remove_first_subseteq in Htid.
  destruct (decide (task = tid)) as [->|Hne].
  - rewrite lookup_insert_eq. by eexists.
  - rewrite lookup_insert_ne by done. by apply Hwf.
Qed.

Lemma wf_engine_process_queue e :
  wf_engine e → wf_engine (_process_queue e).
Proof.
  intros Hwf. unfold _process_queue. destruct (_running e); [|done].
  destruct (start_workers _ _ _ _) as [queue workers] eqn:Hstart.
  intros tid Htid. cbn in *. apply Hwf.
  eapply start_workers_queue_subseteq. by rewrite Hstart.
Qed.

Lemma wf_engine_run_worker e task :
  wf_engine e → wf_engine (run_worker clock provider gather_order task e).
Proof.
  intros Hwf. unfold run_worker.
  destruct (_active_tasks e !! task) as [state|] eqn:Hstate; [|done].
  destruct (_execute_task _ _ _ _) as [r c]. intros tid Htid. cbn in *.
  destruct (decide (task = tid)) as [->|Hne].
  - rewrite lookup_insert_eq. by eexists.
  - rewrite lookup_insert_ne by done. by apply Hwf.
Qed.

(** Every engine reached from a new engine by the operations keeps a
    state for every queued id. *)
Lemma wf_engine_run_ops ops e :
  wf_engine e → wf_engine (run_ops clock provider gather_order ops e).
Proof.
  revert e. induction ops as [|op ops IH]; intros e Hwf; [done|].
  cbn. apply IH. destruct op; cbn [apply_op].
  - by apply wf_engine_submit.
  - by apply wf_engine_cancel.
  - by apply wf_engine_process_queue.
  - case_decide; [by apply wf_engine_run_worker|done].
Qed.

End WellFormed.

(** An instance of C4, amended: a second submission under "t1". *)
Lemma submit_duplicate_replaces_witness :
  ∃ state e',
    submit_task example_clock "t1" "second task" (Some "COST") None 5
      example_engine
    = (Return state, e') ∧
    state
      = create_initial_task_state "t1" "second task"
          (submitted_mode (Some "COST") example_engine)
          (default QUALITY_config
             (MODE_CONFIGS !! submitted_mode (Some "COST") example_engine))
          None 5 (example_clock (engine_reads example_engine)) ∧
    _active_tasks e' !! "t1" = Some state ∧
    (∀ other, other ≠ "t1" →
              _active_tasks e' !! other
              = _active_tasks example_engine !! other) ∧
    _task_queue e' ≡ₚ "t1" :: _task_queue example_engine.
Proof.
  apply (submit_duplicate_replaces example_clock example_engine "t1"
           "second task" (Some "COST") None 5
           (create_initial_task_state "t1" "first task" "QUALITY"
              QUALITY_config None 0 0)).
  - apply wf_engine_submit, wf_engine_init.
  - vm_compute. reflexivity.
Defined.

(** ** Where the code departs from the specification *)

(** C1.  A QUALITY task whose first provider call fails: the first phase
    ends failed, the phase loop stops (the five later phases stay
    pending, without executions) and the task status becomes failed;
    but the event that ends the run is [task_completed], and no
    [task_failed] event is emitted. *)
Theorem phase_failure_emits_task_completed :
  let c' :=
    (_execute_task example_clock failing_provider example_schedule
       example_quality_ctx).2 in
  map phase_status (phases (ctx_state c'))
    = [PHASE_FAILED; PHASE_PENDING; PHASE_PENDING; PHASE_PENDING;
       PHASE_PENDING; PHASE_PENDING] ∧
  map (λ p, length (phase_executions p)) (phases (ctx_state c'))
    = [1; 0; 0; 0; 0; 0]%nat ∧
  status (ctx_state c') = FAILED ∧
  map event_type (ctx_log c')
    = ["task_started"; "task_decomposed"; "phase_started"; "agent_started";
       "agent_completed"; "phase_completed"; "task_completed"].
Proof. vm_compute. done. Qed.

(** C2.  Submit a SPEED task, start_workers it and run its worker with a provider
    that fails: the task ends with the terminal status failed and with
    [completed_at] unset. *)
Theorem phase_failure_leaves_completed_at_unset :
  let e :=
    run_ops example_clock failing_provider example_schedule
      example_speed_run new_engine in
  ∃ state,
    _active_tasks e !! "t1" = Some state ∧
    status state = FAILED ∧
    terminal (status state) = true ∧
    completed_at state = None.
Proof. eexists. split; [vm_compute; reflexivity|]. done. Qed.

(** C5.  On an engine that has not been started, cancel a submitted
    task twice: the first call returns true and leaves the task
    cancelled, and the second call returns true again, emitting a second
    [task_cancelled] event. *)
Theorem second_cancel_returns_true :
  let '(r1, e1) := cancel_task example_clock "t1" example_engine in
  let '(r2, e2) := cancel_task example_clock "t1" e1 in
  r1 = Return true ∧
  status <$> _active_tasks e1 !! "t1" = Some CANCELLED ∧
  r2 = Return true ∧
  map event_type (engine_log e2)
    = ["task_submitted"; "task_cancelled"; "task_cancelled"].
Proof. vm_compute. done. Qed.

(** * Further properties *)

(** ** The queue of [submit_task] *)

Lemma insert_by_priority_sorted active tid l :
  StronglySorted (by_priority active) l →
  StronglySorted (by_priority active) (insert_by_priority active tid l).
Proof.
  induction l as [|y l IH]; intros Hl.
  - repeat constructor.
  - apply StronglySorted_inv in Hl as [Hl Hy]. cbn [insert_by_priority].
    case_decide as Hlt.
    + constructor; [by apply IH|].
      rewrite insert_by_priority_perm. constructor; [|done].
      unfold by_priority. lia.
    + constructor; [by constructor|].
      constructor; [unfold by_priority; lia|].
      eapply Forall_impl; [exact Hy|]. unfold by_priority. intros z Hz. lia.
Qed.

Lemma sort_by_priority_sorted active queue :
  StronglySorted (by_priority active) (sort_by_priority active queue).
Proof.
  induction queue as [|tid queue IH]; [constructor|].
  by apply insert_by_priority_sorted.
Qed.

Lemma insert_by_priority_stable active tid l p :
  filter (λ t, priority_of active t = p) (insert_by_priority active tid l)
  = filter (λ t, priority_of active t = p) (tid :: l).
Proof.
  induction l as [|y l IH]; [done|]. cbn [insert_by_priority].
  case_decide as Hlt; [|done].
  rewrite filter_cons, IH, !filter_cons.
  repeat case_decide; try done. lia.
Qed.

Lemma sort_by_priority_stable active queue p :
  filter (λ t, priority_of active t = p) (sort_by_priority active queue)
  = filter (λ t, priority_of active t = p) queue.
Proof.
  induction queue as [|tid queue IH]; [done|].
  cbn [sort_by_priority foldr]. fold (sort_by_priority active queue).
  by rewrite insert_by_priority_stable, !filter_cons, IH.
Qed.

Section Queue.

Variable clock : nat → Z.
Variable provider : string → nat → nat → ProviderOutcome.
Variable gather_order : string → nat → list nat.

Lemma submit_task_queue e task description mode project priority :
  wf_engine e →
  let e' := (submit_task clock task description mode project priority e).2 in
  _task_queue e'
  = sort_by_priority (_active_tasks e') (_task_queue e ++ [task]).
Proof.
  intros Hwf. cbn zeta.
  destruct (submit_task_returns clock e task description mode project
              priority Hwf) as (e' & Heq & _).
  unfold submit_task in Heq |- *.
  destruct (list_find _ _) as [[i tid]|]; [discriminate Heq|]. reflexivity.
Qed.

(** X1.  After a submission the queue is ordered by priority, highest
    first, whatever the order it had before. *)
Theorem submit_queue_by_priority e task description mode project priority :
  wf_engine e →
  let e' := (submit_task clock task description mode project priority e).2 in
  StronglySorted (by_priority (_active_tasks e')) (_task_queue e').
Proof.
  intros Hwf. cbn zeta. rewrite submit_task_queue by done.
  apply sort_by_priority_sorted.
Qed.

(** X2.  The sort of a submission is stable: the queued ids of any one
    priority stand in the queue in the order they had, the submitted id
    after them. *)
Theorem submit_queue_stable e task description mode project priority p :
  wf_engine e →
  let e' := (submit_task clock task description mode project priority e).2 in
  filter (λ t, priority_of (_active_tasks e') t = p) (_task_queue e')
  = filter (λ t, priority_of (_active_tasks e') t = p)
      (_task_queue e ++ [task]).
Proof.
  intros Hwf. cbn zeta. rewrite submit_task_queue by done.
  apply sort_by_priority_stable.
Qed.

End Queue.

(** An instance of X1: a task of priority 10 submitted behind one of
    priority 0. *)
Lemma submit_queue_by_priority_witness :
  let e' :=
    (submit_task example_clock "t2" "urgent fix" None None 10
       example_engine).2 in
  StronglySorted (by_priority (_active_tasks e')) (_task_queue e').
Proof.
  apply (submit_queue_by_priority example_clock example_engine "t2"
           "urgent fix" None None 10).
  apply wf_engine_submit, wf_engine_init.
Defined.

(** An instance of X2: a second task of priority 0. *)
Lemma submit_queue_stable_witness :
  let e' :=
    (submit_task example_clock "t2" "another task" None None 0
       example_engine).2 in
  filter (λ t, priority_of (_active_tasks e') t = 0) (_task_queue e')
  = filter (λ t, priority_of (_active_tasks e') t = 0)
      (_task_queue example_engine ++ ["t2"]).
Proof.
  apply (submit_queue_stable example_clock example_engine "t2"
           "another task" None None 0 0).
  apply wf_engine_submit, wf_engine_init.
Defined.

(** ** The worker pool *)

Lemma start_workers_spec active max_workers queue workers :
  let r := start_workers active max_workers queue workers in
  (∃ taken, queue = taken ++ r.1) ∧
  (r.1 = [] ∨ (max_workers ≤ size r.2)%nat) ∧
  (workers ⊆ r.2) ∧
  (∀ tid, tid ∈ r.2 →
          tid ∈ workers ∨
          (tid ∈ queue ∧ status <$> active !! tid = Some PENDING)) ∧
  ((size workers ≤ max_workers)%nat → (size r.2 ≤ max_workers)%nat).
Proof.
  cbn zeta. revert workers.
  induction queue as [|tid queue IH]; intros workers.
  - cbn. split; [by exists []|]. split; [by left|]. split; [done|].
    split; [by left|done].
  - cbn [start_workers]. case_decide as Hfull.
    { cbn. split; [by exists []|]. split; [by right|]. split; [done|].
      split; [by left|done]. }
    assert (∀ w, workers ⊆ w →
              (∀ t, t ∈ w → t ∈ workers ∨
                 (t = tid ∧ status <$> active !! tid = Some PENDING)) →
              (size w ≤ max_workers)%nat →
              let r := start_workers active max_workers queue w in
              (∃ taken, tid :: queue = taken ++ r.1) ∧
              (r.1 = [] ∨ (max_workers ≤ size r.2)%nat) ∧
              workers ⊆ r.2 ∧
              (∀ t, t ∈ r.2 →
                    t ∈ workers ∨
                    (t ∈ tid :: queue ∧
                     status <$> active !! t = Some PENDING)) ∧
              ((size workers ≤ max_workers)%nat →
               (size r.2 ≤ max_workers)%nat)) as Hstep.
    { intros w Hsub Hnew Hsize. cbn zeta.
      destruct (IH w) as ((taken & Htaken) & Hend & Hsub' & Hin & Hbound).
      split; [exists (tid :: taken); by rewrite Htaken at 1|].
      split; [done|]. split; [by etrans|]. split; [|auto].
      intros t Ht. destruct (Hin t Ht) as [Hw|[Hq Hst]].
      - destruct (Hnew t Hw) as [?|[-> Hst]]; [by left|right].
        split; [by left|done].
      - right. split; [by right|done]. }
    destruct (active !! tid) as [state|] eqn:Hstate.
    + case_decide as Hpending.
      * apply Hstep; [apply union_subseteq_r| |].
        -- intros t [->%elem_of_singleton|Ht]%elem_of_union; [right|by left].
           split; [done|]. cbn. by f_equal.
        -- rewrite size_union_alt.
           assert (size ({[tid]} : gset string) = 1%nat)
             by apply size_singleton.
           assert (size (workers ∖ {[tid]}) ≤ size workers)%nat
             by (by apply subseteq_size, subseteq_difference_l).
           lia.
      * apply Hstep; [done|by left|lia].
    + apply Hstep; [done|by left|lia].
Qed.

Section Workers.

Variable clock : nat → Z.
Variable provider : string → nat → nat → ProviderOutcome.
Variable gather_order : string → nat → list nat.

Lemma process_queue_workers e task :
  task ∈ _workers (_process_queue e) →
  task ∈ _workers e ∨
  (task ∈ _task_queue e ∧
   status <$> _active_tasks e !! task = Some PENDING).
Proof.
  unfold _process_queue. destruct (_running e); [|by left].
  destruct (start_workers_spec (_active_tasks e) (_max_workers e)
              (_task_queue e) (_workers e)) as (_ & _ & _ & Hin & _).
  destruct (start_workers _ _ _ _) as [queue workers]. cbn in *.
  apply Hin.
Qed.

(** X3.  [_process_queue] creates workers only for queued tasks whose
    status is pending: every worker after it either was one before, or
    belongs to a queued id whose state is pending. *)
Theorem process_queue_starts_pending e task :
  task ∈ _workers (_process_queue e) →
  task ∈ _workers e ∨
  (task ∈ _task_queue e ∧
   status <$> _active_tasks e !! task = Some PENDING).
Proof. apply process_queue_workers. Qed.

(** X4.  On a running engine [_process_queue] takes ids from the head of
    the queue, keeps the rest in order, keeps the workers there were, and
    stops only when the queue is empty or the pool is full. *)
Theorem process_queue_drains e :
  _running e = true →
  let e' := _process_queue e in
  (∃ taken, _task_queue e = taken ++ _task_queue e') ∧
  (_task_queue e' = [] ∨ (_max_workers e ≤ size (_workers e'))%nat) ∧
  _workers e ⊆ _workers e' ∧
  _active_tasks e' = _active_tasks e.
Proof.
  intros Hrun. unfold _process_queue. rewrite Hrun.
  destruct (start_workers_spec (_active_tasks e) (_max_workers e)
              (_task_queue e) (_workers e)) as (Htaken & Hend & Hsub & _).
  destruct (start_workers _ _ _ _) as [queue workers]. by cbn in *.
Qed.

Lemma worker_bound_step op e :
  (size (_workers e) ≤ _max_workers e)%nat →
  let e' := apply_op clock provider gather_order op e in
  (size (_workers e') ≤ _max_workers e')%nat ∧
  _max_workers e' = _max_workers e.
Proof.
  intros Hbound. destruct op as [t d m pr p|t| |t]; cbn [apply_op].
  - unfold submit_task. destruct (list_find _ _) as [[i tid]|]; by cbn.
  - unfold cancel_task. destruct (_active_tasks e !! t); [|done].
    case_decide; [done|]. cbn. split; [|done].
    etrans; [|exact Hbound]. by apply subseteq_size, subseteq_difference_l.
  - unfold _process_queue. destruct (_running e); [|done].
    destruct (start_workers_spec (_active_tasks e) (_max_workers e)
                (_task_queue e) (_workers e)) as (_ & _ & _ & _ & Hb).
    destruct (start_workers _ _ _ _) as [queue workers]. cbn in *. auto.
  - case_decide; [|done]. unfold run_worker.
    destruct (_active_tasks e !! t); [|done].
    destruct (_execute_task _ _ _ _) as [r c]. cbn. split; [|done].
    etrans; [|exact Hbound]. by apply subseteq_size, subseteq_difference_l.
Qed.

(** X5.  The worker bound: from an engine whose workers are within
    [max_workers], no sequence of submissions, cancellations, queue
    processing and worker runs makes [get_stats] report more running
    workers than [max_workers]. *)
Theorem worker_bound ops e :
  (stats_running_workers (get_stats e) ≤ stats_max_workers (get_stats e))%nat →
  let e' := run_ops clock provider gather_order ops e in
  (stats_running_workers (get_stats e') ≤ stats_max_workers (get_stats e'))%nat.
Proof.
  cbn. revert e. induction ops as [|op ops IH]; intros e Hbound; [done|].
  cbn. apply IH. by apply worker_bound_step.
Qed.

End Workers.

(** An instance of X3: the worker created for a submitted SPEED task. *)
Lemma process_queue_starts_pending_witness :
  let e :=
    (submit_task example_clock "t1" "add a login form" (Some "SPEED") None 0
       new_engine).2 in
  "t1" ∈ _workers e ∨
  ("t1" ∈ _task_queue e ∧
   status <$> _active_tasks e !! "t1" = Some PENDING).
Proof.
  apply process_queue_starts_pending. vm_compute. reflexivity.
Defined.

(** An instance of X4: the queue of a running engine with one task. *)
Lemma process_queue_drains_witness :
  let e :=
    (submit_task example_clock "t1" "add a login form" (Some "SPEED") None 0
       new_engine).2 in
  let e' := _process_queue e in
  (∃ taken, _task_queue e = taken ++ _task_queue e') ∧
  (_task_queue e' = [] ∨ (_max_workers e ≤ size (_workers e'))%nat) ∧
  _workers e ⊆ _workers e' ∧
  _active_tasks e' = _active_tasks e.
Proof.
  apply process_queue_drains. reflexivity.
Defined.

(** An instance of X5: a new engine, a SPEED task submitted and run. *)
Lemma worker_bound_witness :
  let e' :=
    run_ops example_clock failing_provider example_schedule
      example_speed_run new_engine in
  (stats_running_workers (get_stats e') ≤ stats_max_workers (get_stats e'))%nat.
Proof.
  apply (worker_bound example_clock failing_provider example_schedule
           example_speed_run new_engine).
  vm_compute. lia.
Defined.

(** ** Ended tasks, mode switches, stopping *)

Lemma same_but_completed_at_cancel s now :
  status s = CANCELLED →
  same_but_completed_at s (set_completed_at now (set_status CANCELLED s)).
Proof.
  destruct s as [tid descr proj md st prio phs cur res files errs toks cost
                  created started completed mc].
  cbn. by intros ->.
Qed.

Section Lifecycle.

Variable clock : nat → Z.
Variable provider : string → nat → nat → ProviderOutcome.
Variable gather_order : string → nat → list nat.

Lemma ended_step task s op e :
  leaves_alone task op →
  ended task s e →
  ∃ s', ended task s' (apply_op clock provider gather_order op e) ∧
        same_but_completed_at s s'.
Proof.
  intros Hop (Hs & Hterm & Hw). unfold ended.
  destruct op as [t d m pr p|t| |t]; cbn [apply_op leaves_alone] in *.
  - exists s. split; [|done]. unfold submit_task.
    destruct (list_find _ _) as [[i tid]|]; cbn;
      (split; [by rewrite lookup_insert_ne|done]).
  - unfold cancel_task.
    destruct (_active_tasks e !! t) as [state|] eqn:Hstate;
      [|by exists s].
    case_decide as Hdone; [by exists s|].
    destruct (decide (t = task)) as [->|Hne].
    + rewrite Hs in Hstate. injection Hstate as <-.
      assert (status s = CANCELLED) as Hcancelled.
      { destruct (status s); try done; exfalso; apply Hdone;
          [by left|right; by left]. }
      eexists. split; [|by apply same_but_completed_at_cancel].
      cbn. split; [by rewrite lookup_insert_eq|]. split; [done|].
      by apply not_elem_of_difference; left.
    + exists s. split; [|done]. cbn.
      split; [by rewrite lookup_insert_ne|]. split; [done|].
      by apply not_elem_of_difference; left.
  - exists s. split; [|done]. split; [|split; [done|]].
    + unfold _process_queue. destruct (_running e); [|done].
      by destruct (start_workers _ _ _ _).
    + intros Hin. apply process_queue_workers in Hin as [?|[_ Hp]];
        [done|].
      rewrite Hs in Hp. injection Hp as Hp. by rewrite Hp in Hterm.
  - exists s. split; [|done]. case_decide as Hin; [|done].
    unfold run_worker.
    destruct (_active_tasks e !! t) as [state|]; [|done].
    destruct (_execute_task _ _ _ _) as [r c]. cbn.
    split; [by rewrite lookup_insert_ne|]. split; [done|].
    by apply not_elem_of_difference; left.
Qed.

(** X6.  A task that has ended (completed, failed or cancelled), has no
    worker in the table and no worker coroutine left to run, stays as it
    is under every sequence of submissions under other ids,
    cancellations, runs of the queue processor and runs of the workers
    of other tasks: it never gets a worker, its status, its phases, its
    results and its totals do not change; only a repeated cancellation
    of a cancelled task writes [completed_at] again. *)
Theorem ended_task_stays task s ops e :
  Forall (leaves_alone task) ops →
  ended task s e →
  ∃ s', ended task s' (run_ops clock provider gather_order ops e) ∧
        same_but_completed_at s s'.
Proof.
  intros Hops. revert s e.
  induction Hops as [|op ops Hop _ IH]; intros s e Hend.
  - by exists s.
  - destruct (ended_step task s op e Hop Hend) as (s1 & Hend1 & Hs1).
    destruct (IH s1 _ Hend1) as (s2 & Hend2 & Hs2).
    exists s2. split; [exact Hend2|].
    unfold same_but_completed_at in *. by rewrite Hs2.
Qed.

(** X7.  Switching to an unregistered mode raises and leaves the engine
    as it was.  After a switch to a registered mode, a submission that
    names no mode records that mode and caches its config, while the
    states of the tasks submitted before, their cached configs among
    them, are unchanged. *)
Theorem switch_mode_then_submit e m task description project priority :
  wf_engine e →
  (MODE_CONFIGS !! m = None →
   switch_mode m e = (Raise (Exception ("Unknown mode: " ++ m)%string), e)) ∧
  (∀ config, MODE_CONFIGS !! m = Some config →
     ∃ r e1 state e2,
       switch_mode m e = (Return r, e1) ∧
       switch_old_mode r = _current_mode e ∧
       switch_new_mode r = m ∧
       submit_task clock task description None project priority e1
         = (Return state, e2) ∧
       mode state = m ∧
       mode_config state = config ∧
       ∀ other, other ≠ task →
                _active_tasks e2 !! other = _active_tasks e !! other).
Proof.
  intros Hwf. split.
  - intros Hnone. unfold switch_mode. by rewrite Hnone.
  - intros config Hconfig. unfold switch_mode. rewrite Hconfig.
    eexists _, _. 
    match goal with
    | |- ∃ state e2, (_, ?e1) = _ ∧ _ =>
        destruct (submit_task_returns clock e1 task description None
                    project priority Hwf) as (e2 & Heq & Hactive & _)
    end.
    eexists _, e2. split; [reflexivity|]. split; [reflexivity|].
    split; [reflexivity|]. split; [exact Heq|].
    cbn. rewrite Hconfig. split; [done|]. split; [done|].
    intros other Hne. rewrite Hactive. cbn. by rewrite lookup_insert_ne.
Qed.

Lemma stopped_step op e :
  _workers e = ∅ → _running e = false →
  let e' := apply_op clock provider gather_order op e in
  _workers e' = ∅ ∧ _running e' = false.
Proof.
  intros Hw Hr. destruct op as [t d m pr p|t| |t]; cbn [apply_op].
  - unfold submit_task. by destruct (list_find _ _) as [[i tid]|].
  - unfold cancel_task. destruct (_active_tasks e !! t) as [state|]; [|done].
    case_decide; [done|]. cbn. split; [|done].
    rewrite Hw. apply empty_difference_L.
  - unfold _process_queue. by rewrite Hr.
  - rewrite Hw. by rewrite decide_False by apply not_elem_of_empty.
Qed.

(** X8.  Once an engine whose worker table is empty has been stopped,
    the queue processor starts nothing: whatever is then submitted or
    cancelled, and however often the queue processor runs, the worker
    table stays empty, the engine stays stopped and a run of the
    queue processor changes nothing. *)
Theorem stopped_engine_starts_nothing ops e :
  _workers e = ∅ →
  let e' := run_ops clock provider gather_order ops (stop e) in
  _workers e' = ∅ ∧ _running e' = false ∧ _process_queue e' = e'.
Proof.
  intros Hempty. cbn zeta.
  assert (_workers (stop e) = ∅ ∧ _running (stop e) = false) as [Hw Hr]
    by done.
  revert Hw Hr. generalize (stop e). clear e Hempty.
  induction ops as [|op ops IH]; intros e Hw Hr.
  - change (run_ops clock provider gather_order [] e) with e.
    split; [done|]. split; [done|]. unfold _process_queue. by rewrite Hr.
  - destruct (stopped_step op e Hw Hr) as (Hw1 & Hr1).
    change (run_ops clock provider gather_order (op :: ops) e)
      with (run_ops clock provider gather_order ops
              (apply_op clock provider gather_order op e)).
    by apply IH.
Qed.

End Lifecycle.

(** An instance of X6: a cancelled task, then a second cancellation
    and a run of the queue processor. *)
Lemma ended_task_stays_witness :
  ∃ s',
    ended "t1" s'
      (run_ops example_clock failing_provider example_schedule
         [OpCancel "t1"; OpProcessQueue; OpRunWorker "t2"]
         example_cancelled_engine) ∧
    same_but_completed_at example_cancelled_state s'.
Proof.
  apply (ended_task_stays example_clock failing_provider example_schedule
           "t1" example_cancelled_state
           [OpCancel "t1"; OpProcessQueue; OpRunWorker "t2"]
           example_cancelled_engine).
  - repeat constructor; discriminate.
  - split; [vm_compute; reflexivity|]. split; [reflexivity|].
    vm_compute. discriminate.
Defined.

(** An instance of X8: an engine holding one queued task, stopped. *)
Lemma stopped_engine_starts_nothing_witness :
  let e' :=
    run_ops example_clock failing_provider example_schedule
      [OpSubmit "t2" "second task" None None 0; OpProcessQueue]
      (stop example_engine) in
  _workers e' = ∅ ∧ _running e' = false ∧ _process_queue e' = e'.
Proof.
  apply (stopped_engine_starts_nothing example_clock failing_provider
           example_schedule
           [OpSubmit "t2" "second task" None None 0; OpProcessQueue]
           example_engine).
  reflexivity.
Defined.

(** An instance of X7: a switch to the SPEED mode. *)
Lemma switch_mode_then_submit_witness :
  ∃ r e1 state e2,
    switch_mode "SPEED" example_engine = (Return r, e1) ∧
    switch_old_mode r = "QUALITY" ∧
    switch_new_mode r = "SPEED" ∧
    submit_task example_clock "t2" "second task" None None 0 e1
      = (Return state, e2) ∧
    mode state = "SPEED" ∧
    mode_config state = SPEED_config ∧
    ∀ other, other ≠ "t2" →
             _active_tasks e2 !! other = _active_tasks example_engine !! other.
Proof.
  apply (switch_mode_then_submit example_clock example_engine "SPEED" "t2"
           "second task" None 0).
  - apply wf_engine_submit, wf_engine_init.
  - reflexivity.
Defined.

(** ** Invariants of the executor, generically *)

Section AgentsInvariant.

Variable clock : nat → Z.
Variable provider : string → nat → nat → ProviderOutcome.
Variable gather_order : string → nat → list nat.
Variable pi : nat.
Variable I : Ctx → Prop.

Hypothesis I_start : ∀ a, preserves I (start_agent clock pi a).
Hypothesis I_finish : ∀ a ei, preserves I (finish_agent clock provider pi a ei).

Lemma invariant_execute_agent a :
  preserves I (_execute_agent clock provider pi a).
Proof. apply preserves_bind; [apply I_start|]. intros ei. apply I_finish. Qed.

Lemma invariant_run_sequential agents :
  preserves I (run_sequential clock provider pi agents).
Proof.
  induction agents as [|a rest IH]; [apply preserves_ret|].
  cbn [run_sequential].
  apply preserves_bind; [apply invariant_execute_agent|]. intros _.
  apply preserves_bind; [apply preserves_get_state|]. intros s.
  destruct (last _) as [e|]; [|done].
  case_decide; [apply preserves_ret|done].
Qed.

Lemma invariant_start_all agents : preserves I (start_all clock pi agents).
Proof.
  induction agents as [|a rest IH]; [apply preserves_ret|].
  cbn [start_all].
  apply preserves_bind; [apply I_start|]. intros ei.
  apply preserves_bind; [apply IH|]. intros started. apply preserves_ret.
Qed.

Lemma invariant_finish_all running :
  preserves I (finish_all clock provider pi running).
Proof.
  induction running as [|[a ei] rest IH]; [apply preserves_ret|].
  cbn [finish_all]. apply preserves_bind; [apply I_finish|done].
Qed.

Lemma invariant_gather_loop sched todo running :
  preserves I (gather_loop clock provider pi sched todo running).
Proof.
  revert todo running. induction sched as [|k sched IH]; intros todo running.
  - cbn [gather_loop].
    apply preserves_bind; [apply invariant_start_all|]. intros started.
    apply invariant_finish_all.
  - cbn [gather_loop]. destruct (running !! k) as [[a ei]|].
    + apply preserves_bind; [apply I_finish|]. intros _. apply IH.
    + destruct todo as [|a todo]; [apply IH|].
      apply preserves_bind; [apply I_start|]. intros ei. apply IH.
Qed.

Lemma invariant_gather agents :
  preserves I (gather clock provider gather_order pi agents).
Proof.
  apply preserves_bind; [apply preserves_get_state|]. intros s.
  apply invariant_gather_loop.
Qed.

Hypothesis I_utcnow : preserves I (utcnow clock).
Hypothesis I_emit : ∀ event data, preserves I (_emit_event event data).
Hypothesis I_phase :
  ∀ f, phase_meta_update f → preserves I (modify_phase pi f).

Lemma invariant_emit_phase event : preserves I (emit_phase event pi).
Proof.
  apply preserves_bind; [apply preserves_get_state|]. intros s. apply I_emit.
Qed.

Lemma invariant_execute_phase :
  preserves I (_execute_phase clock provider gather_order pi).
Proof.
  unfold _execute_phase.
  apply preserves_bind; [apply I_phase; constructor|]. intros _.
  apply preserves_bind; [apply I_utcnow|]. intros now.
  apply preserves_bind; [apply I_phase; constructor|]. intros _.
  apply preserves_bind; [apply invariant_emit_phase|]. intros _.
  apply preserves_try_finally.
  - apply preserves_try_except.
    apply preserves_bind; [apply preserves_get_state|]. intros s.
    apply preserves_bind.
    { destruct (_ && _);
        [apply invariant_gather|apply invariant_run_sequential]. }
    intros _.
    apply preserves_bind; [apply preserves_get_state|]. intros s'.
    apply I_phase. constructor.
  - apply preserves_bind; [apply I_utcnow|]. intros now'.
    apply preserves_bind; [apply I_phase; constructor|]. intros _.
    apply invariant_emit_phase.
Qed.

End AgentsInvariant.

Section TaskInvariant.

Variable clock : nat → Z.
Variable provider : string → nat → nat → ProviderOutcome.
Variable gather_order : string → nat → list nat.
Variable I : Ctx → Prop.

Hypothesis I_start : ∀ pi a, preserves I (start_agent clock pi a).
Hypothesis I_finish :
  ∀ pi a ei, preserves I (finish_agent clock provider pi a ei).
Hypothesis I_utcnow : preserves I (utcnow clock).
Hypothesis I_emit : ∀ event data, preserves I (_emit_event event data).
Hypothesis I_phase :
  ∀ pi f, phase_meta_update f → preserves I (modify_phase pi f).
Hypothesis I_task : ∀ f, task_meta_update f → preserves I (modify_state f).

Lemma invariant_emit_state event : preserves I (emit_state event).
Proof.
  apply preserves_bind; [apply preserves_get_state|]. intros s. apply I_emit.
Qed.

Lemma invariant_run_phases phase_idx n :
  preserves I (run_phases clock provider gather_order phase_idx n).
Proof.
  revert phase_idx. induction n as [|n IH]; intros phase_idx.
  - apply preserves_ret.
  - cbn [run_phases].
    apply preserves_bind; [apply I_task; constructor|]. intros _.
    apply preserves_bind.
    { apply invariant_execute_phase; auto. }
    intros _.
    apply preserves_bind; [apply preserves_get_state|]. intros s.
    case_decide; [apply I_task; constructor|apply IH].
Qed.

(** The run of a task keeps [I] once the decomposition has established
    it from [J], which the steps before the decomposition keep. *)
Lemma invariant_execute_task (J : Ctx → Prop) :
  preserves J (utcnow clock) →
  (∀ event data, preserves J (_emit_event event data)) →
  (∀ f, task_meta_update f → preserves J (modify_state f)) →
  (∀ c, J c → wp _decompose_task (λ _ c', I c') never c) →
  ∀ c, J c →
       wp (_execute_task clock provider gather_order) (λ _ c', I c') never c.
Proof.
  intros J_utcnow J_emit J_task J_decompose c Hc.
  unfold _execute_task. apply wp_try_except.
  apply (wp_mono _ (λ _ c', I c') _ never); [|by intros|by intros e c' ?].
  apply wp_bind. eapply wp_mono; [by apply J_task; [constructor|]| |done].
  intros ? c1 Hc1; cbn beta in Hc1. apply wp_bind.
  eapply wp_mono; [by apply J_utcnow| |done]. intros now c2 Hc2.
  apply wp_bind.
  eapply wp_mono; [by apply J_task; [constructor|]| |done].
  intros ? c3 Hc3; cbn beta in Hc3. apply wp_bind.
  eapply wp_mono.
  { apply (preserves_bind J); [apply preserves_get_state| |exact Hc3].
    intros s. apply J_emit. }
  2: done.
  intros ? c4 Hc4; cbn beta in Hc4. apply wp_bind.
  eapply wp_mono; [by apply J_decompose| |done]. intros ? c5 Hc5; cbn beta in Hc5.
  match goal with
  | |- wp ?m _ _ _ => assert (preserves I m) as Hrest
  end.
  { apply preserves_bind; [apply I_task; constructor|]. intros _.
    apply preserves_bind; [apply invariant_emit_state|]. intros _.
    apply preserves_bind; [apply preserves_get_state|]. intros s.
    apply preserves_bind; [apply invariant_run_phases|]. intros _.
    apply preserves_bind; [apply preserves_get_state|]. intros s'.
    apply preserves_bind; [|intros _; apply invariant_emit_state].
    case_decide; [|apply preserves_ret].
    apply preserves_bind; [apply I_task; constructor|]. intros _.
    apply preserves_bind; [apply I_utcnow|]. intros now'.
    apply I_task. constructor. }
  by apply Hrest.
Qed.

End TaskInvariant.

(** ** The executor keeps what identifies a task *)

Lemma keeps_identity_state h c0 c s :
  keeps_identity h c0 c →
  identity s = h →
  keeps_identity h c0
    {| ctx_state := s; ctx_reads := ctx_reads c; ctx_log := ctx_log c |}.
Proof. intros [_ Hlog] Hs. by split. Qed.

Lemma keeps_identity_reads h c0 c r :
  keeps_identity h c0 c →
  keeps_identity h c0
    {| ctx_state := ctx_state c; ctx_reads := r; ctx_log := ctx_log c |}.
Proof. by intros [Hs Hlog]. Qed.

Lemma keeps_identity_emit h c0 c event data :
  keeps_identity h c0 c →
  keeps_identity h c0
    {| ctx_state := ctx_state c; ctx_reads := ctx_reads c;
       ctx_log := ctx_log c ++
         [ {| event_type := event; event_data := data;
              event_state := ctx_state c |} ] |}.
Proof.
  intros [Hs (evs & Hlog & Hevs)]. split; [done|].
  eexists (evs ++ [_]). cbn [ctx_log]. rewrite Hlog, (assoc_L (++)).
  split; [done|]. apply Forall_app. split; [done|].
  by apply Forall_singleton.
Qed.

Section ExecutorIdentity.

Variable clock : nat → Z.
Variable provider : string → nat → nat → ProviderOutcome.
Variable gather_order : string → nat → list nat.
Variable h : string * string * option string * string * Z * list string
             * Z * ModeConfig.
Variable c0 : Ctx.

Lemma identity_utcnow : preserves (keeps_identity h c0) (utcnow clock).
Proof. intros c Hc. wp_steps. by apply keeps_identity_reads. Qed.

Lemma identity_emit event data :
  preserves (keeps_identity h c0) (_emit_event event data).
Proof. intros c Hc. wp_steps. by apply keeps_identity_emit. Qed.

Lemma identity_modify_phase pi f :
  preserves (keeps_identity h c0) (modify_phase pi f).
Proof.
  intros c Hc. wp_steps. apply keeps_identity_state; [done|apply Hc].
Qed.

Lemma identity_modify_state f :
  (∀ s, identity (f s) = identity s) →
  preserves (keeps_identity h c0) (modify_state f).
Proof.
  intros Hf c Hc. wp_steps. apply keeps_identity_state; [done|].
  rewrite Hf. apply Hc.
Qed.

Lemma identity_start_agent pi a :
  preserves (keeps_identity h c0) (start_agent clock pi a).
Proof.
  unfold start_agent.
  apply preserves_bind; [apply identity_utcnow|]. intros now.
  apply preserves_bind; [apply preserves_get_state|]. intros s.
  apply preserves_bind; [apply identity_modify_phase|]. intros _.
  apply preserves_bind; [apply identity_emit|]. intros _.
  apply preserves_ret.
Qed.

Lemma identity_finish_agent pi a ei :
  preserves (keeps_identity h c0) (finish_agent clock provider pi a ei).
Proof.
  unfold finish_agent. apply preserves_try_finally.
  - intros c Hc. apply wp_try_except, wp_bind, wp_generate.
    destruct (provider _ _ _) as [result|msg].
    + revert c Hc.
      change (preserves (keeps_identity h c0)
        (modify_execution pi ei (exec_succeed result);;
         s ← get_state;
         let execution := execution_at pi ei s in
         modify_state (set_tokens_used
           (tokens_used s + (exec_tokens_input execution
                             + exec_tokens_output execution)));;
         modify_state (set_estimated_cost
           (estimated_cost s + exec_cost execution)%Qc);;
         modify_state (λ s, set_results
           (<[a := {| result_output := default "" (gen_content result);
                      result_tokens := exec_tokens_input execution
                                       + exec_tokens_output execution;
                      result_cost := exec_cost execution |}]> (results s))
           s))).
      apply preserves_bind; [apply identity_modify_phase|]. intros _.
      apply preserves_bind; [apply preserves_get_state|]. intros s. cbn zeta.
      apply preserves_bind; [by apply identity_modify_state|]. intros _.
      apply preserves_bind; [by apply identity_modify_state|]. intros _.
      by apply identity_modify_state.
    + by apply identity_modify_phase.
  - apply preserves_bind; [apply identity_utcnow|]. intros now.
    apply preserves_bind; [apply identity_modify_phase|]. intros _.
    apply preserves_bind; [apply preserves_get_state|]. intros s.
    apply identity_emit.
Qed.

End ExecutorIdentity.

Lemma execute_task_identity clock provider gather_order c :
  wp (_execute_task clock provider gather_order)
     (λ _ c', keeps_identity (identity (ctx_state c)) c c') never c.
Proof.
  set (h := identity (ctx_state c)).
  apply (invariant_execute_task clock provider gather_order
           (keeps_identity h c) (identity_start_agent clock h c)
           (identity_finish_agent clock provider h c)
           (identity_utcnow clock h c) (identity_emit h c)
           (λ pi f _, identity_modify_phase h c pi f)
           (λ f Hf, identity_modify_state h c f
                      ltac:(by destruct Hf))
           (keeps_identity h c)).
  - apply identity_utcnow.
  - apply identity_emit.
  - intros f Hf. apply identity_modify_state. by destruct Hf.
  - intros c1 Hc1. unfold _decompose_task. wp_steps.
    by apply keeps_identity_state; [|apply Hc1].
  - split; [done|]. exists []. by rewrite (right_id_L [] (++)).
Qed.

(** X9.  Running a task changes neither its id, description, project,
    mode, priority, list of modified files, creation time nor its cached
    mode config: the run returns, and the final state and the state
    carried by every event emitted during the run have these fields as
    they were at the start. *)
Theorem execute_task_keeps_identity clock provider gather_order c :
  ∃ c' evs,
    _execute_task clock provider gather_order c = (Return (), c') ∧
    identity (ctx_state c') = identity (ctx_state c) ∧
    ctx_log c' = ctx_log c ++ evs ∧
    Forall (λ ev, identity (event_state ev) = identity (ctx_state c)) evs.
Proof.
  destruct (wp_post _ _ _ (execute_task_identity clock provider gather_order c))
    as ([] & c' & Heq & Hid & evs & Hlog & Hevs).
  by exists c', evs.
Qed.

(** ** The queue stays ordered by priority *)

Lemma by_priority_ext active active' l :
  (∀ tid, priority_of active' tid = priority_of active tid) →
  StronglySorted (by_priority active) l →
  StronglySorted (by_priority active') l.
Proof.
  intros Hext. induction 1 as [|x l Hl IH Hx]; constructor; [done|].
  eapply Forall_impl; [exact Hx|]. unfold by_priority.
  intros y. by rewrite !Hext.
Qed.

Lemma priority_of_insert active tid s s' other :
  active !! tid = Some s →
  priority s' = priority s →
  priority_of (<[tid := s']> active) other = priority_of active other.
Proof.
  intros Hs Hp. unfold priority_of.
  destruct (decide (tid = other)) as [<-|Hne].
  - by rewrite lookup_insert_eq, Hs.
  - by rewrite lookup_insert_ne.
Qed.

Lemma list_remove_first_sorted active x l :
  StronglySorted (by_priority active) l →
  StronglySorted (by_priority active) (list_remove_first x l).
Proof.
  induction 1 as [|y l Hl IH Hy]; [constructor|].
  cbn [list_remove_first]. case_decide; [done|].
  constructor; [done|]. apply Forall_forall. intros z Hz.
  rewrite Forall_forall in Hy. by apply Hy, (list_remove_first_subseteq x).
Qed.

Section QueueOrder.

Variable clock : nat → Z.
Variable provider : string → nat → nat → ProviderOutcome.
Variable gather_order : string → nat → list nat.

Lemma queue_order_step op e :
  wf_engine e →
  StronglySorted (by_priority (_active_tasks e)) (_task_queue e) →
  let e' := apply_op clock provider gather_order op e in
  StronglySorted (by_priority (_active_tasks e')) (_task_queue e').
Proof.
  intros Hwf Hsorted. destruct op as [t d m pr p|t| |t]; cbn [apply_op].
  - cbn zeta. rewrite (submit_task_queue clock) by done.
    apply sort_by_priority_sorted.
  - unfold cancel_task.
    destruct (_active_tasks e !! t) as [state|] eqn:Hstate; [|done].
    case_decide; [done|]. cbn.
    apply (by_priority_ext (_active_tasks e)).
    { intros tid. by apply (priority_of_insert _ _ state). }
    by apply list_remove_first_sorted.
  - cbn zeta. unfold _process_queue. destruct (_running e); [|done].
    destruct (start_workers_spec (_active_tasks e) (_max_workers e)
                (_task_queue e) (_workers e)) as ((taken & Htaken) & _).
    destruct (start_workers _ _ _ _) as [queue workers]. cbn in *.
    rewrite Htaken in Hsorted. by apply StronglySorted_app_1_r in Hsorted.
  - cbn zeta. case_decide; [|done]. unfold run_worker.
    destruct (_active_tasks e !! t) as [state|] eqn:Hstate; [|done].
    pose proof (execute_task_identity clock provider gather_order
                  {| ctx_state := state; ctx_reads := engine_reads e;
                     ctx_log := engine_log e |}) as Hid.
    apply wp_post in Hid as ([] & c & Heq & Hid & _).
    rewrite Heq. cbn.
    apply (by_priority_ext (_active_tasks e)); [|done].
    intros tid. apply (priority_of_insert _ _ state); [done|].
    cbn in Hid. unfold identity in Hid. by simplify_eq.
Qed.

(** X10.  The queue stays ordered: from an engine whose queue is ordered
    by priority, highest first, every sequence of submissions,
    cancellations, queue processing and worker runs leads to an engine
    whose queue is ordered by priority, so that the queue processor
    always takes a task of the highest priority queued. *)
Theorem queue_stays_by_priority ops e :
  wf_engine e →
  StronglySorted (by_priority (_active_tasks e)) (_task_queue e) →
  let e' := run_ops clock provider gather_order ops e in
  StronglySorted (by_priority (_active_tasks e')) (_task_queue e').
Proof.
  cbn zeta. revert e. induction ops as [|op ops IH]; intros e Hwf Hsorted.
  - done.
  - change (run_ops clock provider gather_order (op :: ops) e)
      with (run_ops clock provider gather_order ops
              (apply_op clock provider gather_order op e)).
    apply IH; [|by apply queue_order_step].
    by apply (wf_engine_run_ops clock provider gather_order [op]).
Qed.

End QueueOrder.

(** An instance of X10: a new engine, a SPEED task submitted and run. *)
Lemma queue_stays_by_priority_witness :
  let e' :=
    run_ops example_clock failing_provider example_schedule
      example_speed_run new_engine in
  StronglySorted (by_priority (_active_tasks e')) (_task_queue e').
Proof.
  apply (queue_stays_by_priority example_clock failing_provider
           example_schedule example_speed_run new_engine).
  - apply wf_engine_new.
  - constructor.
Defined.

(** ** What a phase run leaves behind *)

Lemma alter_insert_eq {A} (f : A → A) (l : list A) i x :
  alter f i (<[i := x]> l) = <[i := f x]> l.
Proof.
  revert i. induction l as [|y l IH]; intros [|i]; cbn; [done..|].
  f_equal. apply IH.
Qed.

Lemma same_but_executions_eq p p' :
  same_but_executions p p' →
  p' = set_phase_executions (phase_executions p') p.
Proof.
  unfold same_but_executions. destruct p, p'. cbn. by intros [= -> -> -> -> -> -> -> ->].
Qed.

Section PhaseOutcome.

Variable clock : nat → Z.
Variable provider : string → nat → nat → ProviderOutcome.
Variable gather_order : string → nat → list nat.
Variable pi : nat.
Variable p1 : PhaseState.
Variable s1 : TaskState.

Lemma in_phase_utcnow : preserves (in_phase pi p1 s1) (utcnow clock).
Proof. intros c Hc. by wp_steps. Qed.

Lemma in_phase_emit event data :
  preserves (in_phase pi p1 s1) (_emit_event event data).
Proof. intros c Hc. by wp_steps. Qed.

Lemma in_phase_modify_phase f :
  (∀ p, same_but_executions p (f p)) →
  preserves (in_phase pi p1 s1) (modify_phase pi f).
Proof.
  intros Hf c [Hmeta (es & Hes)]. wp_steps. split; [done|].
  cbn [ctx_state phases set_phases]. rewrite Hes, alter_insert_eq.
  exists (phase_executions (f (set_phase_executions es p1))).
  f_equal. by rewrite (same_but_executions_eq _ _ (Hf _)) at 1.
Qed.

Lemma in_phase_modify_state f :
  (∀ s, task_meta (f s) = task_meta s ∧ phases (f s) = phases s) →
  preserves (in_phase pi p1 s1) (modify_state f).
Proof.
  intros Hf c [Hmeta (es & Hes)]. wp_steps.
  destruct (Hf (ctx_state c)) as [Hmeta' Hphases]. split.
  - cbn [ctx_state]. by rewrite Hmeta'.
  - exists es. cbn [ctx_state]. by rewrite Hphases.
Qed.

Lemma in_phase_start_agent a :
  preserves (in_phase pi p1 s1) (start_agent clock pi a).
Proof.
  unfold start_agent.
  apply preserves_bind; [apply in_phase_utcnow|]. intros now.
  apply preserves_bind; [apply preserves_get_state|]. intros s.
  apply preserves_bind; [by apply in_phase_modify_phase|]. intros _.
  apply preserves_bind; [apply in_phase_emit|]. intros _.
  apply preserves_ret.
Qed.

Lemma in_phase_finish_agent a ei :
  preserves (in_phase pi p1 s1) (finish_agent clock provider pi a ei).
Proof.
  unfold finish_agent. apply preserves_try_finally.
  - intros c Hc. apply wp_try_except, wp_bind, wp_generate.
    destruct (provider _ _ _) as [result|msg].
    + revert c Hc.
      change (preserves (in_phase pi p1 s1)
        (modify_execution pi ei (exec_succeed result);;
         s ← get_state;
         let execution := execution_at pi ei s in
         modify_state (set_tokens_used
           (tokens_used s + (exec_tokens_input execution
                             + exec_tokens_output execution)));;
         modify_state (set_estimated_cost
           (estimated_cost s + exec_cost execution)%Qc);;
         modify_state (λ s, set_results
           (<[a := {| result_output := default "" (gen_content result);
                      result_tokens := exec_tokens_input execution
                                       + exec_tokens_output execution;
                      result_cost := exec_cost execution |}]> (results s))
           s))).
      apply preserves_bind; [by apply in_phase_modify_phase|]. intros _.
      apply preserves_bind; [apply preserves_get_state|]. intros s. cbn zeta.
      apply preserves_bind; [by apply in_phase_modify_state|]. intros _.
      apply preserves_bind; [by apply in_phase_modify_state|]. intros _.
      by apply in_phase_modify_state.
    + by apply in_phase_modify_phase.
  - apply preserves_bind; [apply in_phase_utcnow|]. intros now.
    apply preserves_bind; [by apply in_phase_modify_phase|]. intros _.
    apply preserves_bind; [apply preserves_get_state|]. intros s.
    apply in_phase_emit.
Qed.

End PhaseOutcome.

Section PhaseOutcomeSpec.

Variable clock : nat → Z.
Variable provider : string → nat → nat → ProviderOutcome.
Variable gather_order : string → nat → list nat.

Lemma execute_phase_spec pi c p :
  phases (ctx_state c) !! pi = Some p →
  wp (_execute_phase clock provider gather_order pi)
     (λ _ c',
        ∃ es now,
          phases (ctx_state c')
          = <[pi := set_phase_completed_at (Some now)
                      (set_phase_status (phase_result es)
                         (set_phase_started_at (Some (clock (ctx_reads c)))
                            (set_phase_executions es p)))]>
              (phases (ctx_state c)) ∧
          task_meta (ctx_state c') = task_meta (ctx_state c))
     never c.
Proof.
  intros Hpi. unfold _execute_phase. wp_steps.
  set (p1 := set_phase_started_at (Some (clock (ctx_reads c)))
               (set_phase_status PHASE_RUNNING p)).
  match goal with
  | |- wp _ _ _ ?c1 => set (c1' := c1)
  end.
  assert (in_phase pi p1 (ctx_state c1') c1') as Hin.
  { split; [done|]. exists (phase_executions p). cbn.
    split_at Hpi. subst pi. rewrite Heq. middle_simpl.
    by destruct p. }
  assert (pi < length (phases (ctx_state c)))%nat as Hlt
    by by eapply lookup_lt_Some.
  apply (wp_mono _ (λ _ c', in_phase pi p1 (ctx_state c1') c') _ never).
  { destruct (_ && _).
    - by apply invariant_gather;
        [apply in_phase_start_agent|apply in_phase_finish_agent|].
    - by apply invariant_run_sequential;
        [apply in_phase_start_agent|apply in_phase_finish_agent|]. }
  2: by intros e c' ?.
  intros [] c2 [Hmeta (es & Hes)]. wp_steps.
  exists es, (clock (ctx_reads c2)). split; [|done].
  cbn [ctx_state phases set_phases]. unfold phase_at.
  rewrite Hes, !alter_insert_eq. cbn [c1' ctx_state phases set_phases].
  rewrite list_lookup_insert_eq
    by (by rewrite !length_alter).
  cbn [default phase_executions set_phase_executions].
  split_at Hpi. subst pi. rewrite Heq. middle_simpl.
  reflexivity.
Qed.

End PhaseOutcomeSpec.

(** ** What a task run leaves behind *)

Section TaskOutcome.

Variable clock : nat → Z.
Variable provider : string → nat → nat → ProviderOutcome.
Variable gather_order : string → nat → list nat.


Lemma run_phases_spec post pre c :
  phases (ctx_state c) = pre ++ post →
  wp (run_phases clock provider gather_order (length pre) (length post))
     (λ _ c',
        ∃ ran,
          phases (ctx_state c') = pre ++ ran ++ drop (length ran) post ∧
          Forall2 ran_from (take (length ran) post) ran ∧
          started_at (ctx_state c') = started_at (ctx_state c) ∧
          completed_at (ctx_state c') = completed_at (ctx_state c) ∧
          errors (ctx_state c') = errors (ctx_state c) ∧
          ((status (ctx_state c') = status (ctx_state c) ∧
            all_completed post ran) ∨
           (status (ctx_state c') = FAILED ∧ stopped_at_failure ran)))
     never c.
Proof.
  revert pre c. induction post as [|p post IH]; intros pre c Hphases.
  - cbn [length run_phases]. apply wp_ret. exists [].
    rewrite Hphases. repeat split; [constructor|]. left. by repeat split.
  - cbn [length run_phases]. wp_steps.
    match goal with
    | |- wp _ _ _ ?c1 => set (c1' := c1)
    end.
    assert (phases (ctx_state c1') !! length pre = Some p) as Hpi.
    { cbn. rewrite Hphases. apply lookup_middle. }
    apply (wp_mono _ _ _ never _ _
             (execute_phase_spec clock provider gather_order _ _ _ Hpi));
      [|by intros e c' ?].
    intros [] c2 (es & now & Hc2 & Hmeta).
    cbn [c1' ctx_state ctx_reads phases set_current_phase] in Hc2.
    rewrite Hphases, insert_middle in Hc2.
    set (p' := set_phase_completed_at (Some now)
                 (set_phase_status (phase_result es)
                    (set_phase_started_at (Some (clock (ctx_reads c)))
                       (set_phase_executions es p)))) in *.
    assert (ran_from p p') as Hran by (by eexists _, _, _).
    assert (started_at (ctx_state c2) = started_at (ctx_state c) ∧
            completed_at (ctx_state c2) = completed_at (ctx_state c) ∧
            errors (ctx_state c2) = errors (ctx_state c) ∧
            status (ctx_state c2) = status (ctx_state c))
      as (Hstarted & Hcompleted & Herrors & Hstatus).
    { unfold task_meta in Hmeta. cbn in Hmeta. by simplify_eq. }
    wp_steps.
    rewrite (phase_at_lookup _ _ p')
      by (rewrite Hc2; apply lookup_middle).
    case_decide as Hfailed.
    + wp_steps. exists [p']. cbn [ctx_state phases set_status length drop
        take app status started_at completed_at errors].
      rewrite drop_0. split; [done|]. split; [by constructor|].
      split; [done|]. split; [done|]. split; [done|]. right.
      split; [done|]. exists [], p'. by repeat split.
    + assert (phase_status p' = PHASE_COMPLETED) as Hdone.
      { revert Hfailed. cbn. unfold phase_result. by case_bool_decide. }
      assert (phases (ctx_state c2) = (pre ++ [p']) ++ post) as Hc2'
        by (by rewrite <- (assoc_L (++))).
      pose proof (IH (pre ++ [p']) c2 Hc2') as HIH.
      rewrite length_app in HIH. cbn [length] in HIH.
      rewrite Nat.add_1_r in HIH.
      apply (wp_mono _ _ _ never _ _ HIH); [|by intros e c' ?].
      intros [] c3 (ran & Hc3 & Hrans & Hs3 & Hc3' & He3 & Hend).
      exists (p' :: ran). cbn [length drop take].
      split; [by rewrite Hc3, <- (assoc_L (++))|].
      split; [by constructor|].
      split; [by rewrite Hs3|]. split; [by rewrite Hc3'|].
      split; [by rewrite He3|].
      destruct Hend as [[Hst [Hlen Hall]]|[Hst (before & q & -> & Hall & Hq)]].
      * left. split; [by rewrite Hst|].
        split; [cbn; by rewrite Hlen|by constructor].
      * right. split; [done|]. exists (p' :: before), q.
        split; [done|]. split; [by constructor|done].
Qed.

Lemma execute_task_spec c :
  wp (_execute_task clock provider gather_order)
     (λ _ c',
        ∃ ran,
          let all := decompose_phases (mode_config (ctx_state c)) in
          phases (ctx_state c') = ran ++ drop (length ran) all ∧
          Forall2 ran_from (take (length ran) all) ran ∧
          started_at (ctx_state c') = Some (clock (ctx_reads c)) ∧
          errors (ctx_state c') = errors (ctx_state c) ∧
          ((status (ctx_state c') = COMPLETED ∧
            all_completed all ran ∧
            is_Some (completed_at (ctx_state c'))) ∨
           (status (ctx_state c') = FAILED ∧ stopped_at_failure ran)))
     never c.
Proof.
  unfold _execute_task, _decompose_task. wp_steps.
  match goal with
  | |- wp _ _ _ ?c1 => set (c1' := c1)
  end.
  set (all := decompose_phases (mode_config (ctx_state c))).
  assert (phases (ctx_state c1') = [] ++ all) as Hphases by done.
  change (length (phases _)) with (length all).
  apply (wp_mono _ _ _ never _ _
           (run_phases_spec all [] c1' Hphases)); [|by intros e c' ?].
  intros [] c2 (ran & Hc2 & Hrans & Hs2 & Hc2' & He2 & Hend).
  cbn [app] in Hc2. wp_steps.
  destruct Hend as [[Hst Hall]|[Hst Hstop]].
  - rewrite decide_True by (by rewrite Hst). wp_steps.
    exists ran. cbn zeta. cbn [ctx_state phases set_status set_completed_at
      started_at errors status completed_at].
    split; [done|]. split; [done|]. split; [by rewrite Hs2|].
    split; [by rewrite He2|]. left.
    split; [done|]. split; [done|]. by eexists.
  - rewrite decide_False by (by rewrite Hst). wp_steps.
    exists ran. cbn zeta. split; [done|]. split; [done|].
    split; [by rewrite Hs2|]. split; [by rewrite He2|]. by right.
Qed.


End TaskOutcome.


(** ** The totals of a task never decrease *)

Lemma totals_le_refl s : totals_le s s.
Proof. split; [lia|apply Qcle_refl]. Qed.

Lemma totals_le_same s s' :
  tokens_used s' = tokens_used s →
  estimated_cost s' = estimated_cost s →
  totals_le s s'.
Proof. intros Ht Hc. split; [lia|rewrite Hc; apply Qcle_refl]. Qed.

Lemma totals_le_trans s1 s2 s3 :
  totals_le s1 s2 → totals_le s2 s3 → totals_le s1 s3.
Proof.
  intros [Ht1 Hc1] [Ht2 Hc2]. split; [lia|by eapply Qcle_trans].
Qed.

Lemma sorted_replace_last (l : list TaskState) s s' :
  StronglySorted totals_le (l ++ [s]) →
  totals_le s s' →
  StronglySorted totals_le (l ++ [s']).
Proof.
  rewrite !StronglySorted_app. intros (Hle & Hl & _) Hs.
  split; [|split; [done|repeat constructor]].
  intros x1 x2 Hx1 ->%list_elem_of_singleton.
  eapply totals_le_trans; [|exact Hs]. apply Hle; [done|].
  by apply list_elem_of_singleton.
Qed.

Lemma sorted_repeat_last (l : list TaskState) s :
  StronglySorted totals_le (l ++ [s]) →
  StronglySorted totals_le ((l ++ [s]) ++ [s]).
Proof.
  intros Hsorted. apply StronglySorted_app.
  split; [|split; [done|repeat constructor]].
  intros x1 x2 Hx1 ->%list_elem_of_singleton.
  apply StronglySorted_app in Hsorted as (Hle & _ & _).
  apply elem_of_app in Hx1 as [Hx1|Hx1];
    [|apply list_elem_of_singleton in Hx1 as ->].
  - apply Hle; [done|]. by apply list_elem_of_singleton.
  - apply totals_le_refl.
Qed.

Lemma totals_grow_state c0 c s :
  totals_grow c0 c →
  totals_le (ctx_state c) s →
  totals_grow c0
    {| ctx_state := s; ctx_reads := ctx_reads c; ctx_log := ctx_log c |}.
Proof.
  intros (evs & Hlog & Hsorted) Hs. exists evs. split; [done|].
  by apply (sorted_replace_last _ (ctx_state c)).
Qed.

(** The execution that [finish_agent] reads after it has recorded the
    result of the provider. *)
Lemma execution_at_succeed pi ei result s :
  let s' :=
    set_phases
      (alter (λ p, set_phase_executions
                     (alter (exec_succeed result) ei (phase_executions p)) p)
         pi (phases s)) s in
  (∃ e, execution_at pi ei s' = exec_succeed result e) ∨
  execution_at pi ei s' = create_agent_execution "".
Proof.
  cbn zeta. unfold execution_at, phase_at. cbn [phases set_phases].
  rewrite list_lookup_alter_eq.
  destruct (phases s !! pi) as [p|]; cbn; [|by right].
  rewrite list_lookup_alter_eq.
  destruct (phase_executions p !! ei) as [e|]; cbn; [left; by exists e|].
  by right.
Qed.

Section TotalsGrow.

Variable clock : nat → Z.
Variable provider : string → nat → nat → ProviderOutcome.
Variable gather_order : string → nat → list nat.
Variable c0 : Ctx.

Hypothesis provider_ok : provider_nonneg provider.

Lemma totals_grow_utcnow : preserves (totals_grow c0) (utcnow clock).
Proof. intros c Hc. by wp_steps. Qed.

Lemma totals_grow_emit event data :
  preserves (totals_grow c0) (_emit_event event data).
Proof.
  intros c (evs & Hlog & Hsorted). wp_steps. eexists (evs ++ [_]).
  cbn [ctx_log ctx_state]. rewrite Hlog, (assoc_L (++)). split; [done|].
  rewrite map_app.
  by apply (sorted_repeat_last (ctx_state c0 :: map event_state evs)).
Qed.

Lemma totals_grow_modify_state f :
  (∀ s, totals_le s (f s)) →
  preserves (totals_grow c0) (modify_state f).
Proof. intros Hf c Hc. wp_steps. by apply totals_grow_state. Qed.

Lemma totals_grow_modify_phase pi f :
  preserves (totals_grow c0) (modify_phase pi f).
Proof.
  intros c Hc. wp_steps. apply totals_grow_state; [done|].
  by apply totals_le_same.
Qed.

Lemma totals_grow_start_agent pi a :
  preserves (totals_grow c0) (start_agent clock pi a).
Proof.
  unfold start_agent.
  apply preserves_bind; [apply totals_grow_utcnow|]. intros now.
  apply preserves_bind; [apply preserves_get_state|]. intros s.
  apply preserves_bind; [apply totals_grow_modify_phase|]. intros _.
  apply preserves_bind; [apply totals_grow_emit|]. intros _.
  apply preserves_ret.
Qed.

Lemma totals_grow_finish_agent pi a ei :
  preserves (totals_grow c0) (finish_agent clock provider pi a ei).
Proof.
  unfold finish_agent. apply preserves_try_finally.
  - intros c Hc. apply wp_try_except, wp_bind, wp_generate.
    destruct (provider _ _ _) as [result|msg] eqn:Hprovider.
    + destruct (provider_ok _ _ _ _ Hprovider) as (Hin & Hout & Hcost).
      wp_steps.
      match goal with
      | |- context [execution_at pi ei ?s] =>
          destruct (execution_at_succeed pi ei result (ctx_state c))
            as [[e ->]| ->]
      end;
        cbn [exec_tokens_input exec_tokens_output exec_cost exec_succeed
             create_agent_execution].
      * apply totals_grow_state; [done|]. split; cbn; [lia|].
        rewrite <- (Qcplus_0_r (estimated_cost (ctx_state c))) at 1.
        by apply Qcplus_le_compat; [apply Qcle_refl|].
      * apply totals_grow_state; [done|]. split; cbn; [lia|].
        rewrite Qcplus_0_r. apply Qcle_refl.
    + by apply totals_grow_modify_phase.
  - apply preserves_bind; [apply totals_grow_utcnow|]. intros now.
    apply preserves_bind; [apply totals_grow_modify_phase|]. intros _.
    apply preserves_bind; [apply preserves_get_state|]. intros s.
    apply totals_grow_emit.
Qed.

(** X13.  With a provider that reports no negative token count or cost,
    the totals of a task never decrease during a run: from the state at
    the start, through the state carried by every event emitted, in
    order, to the final state, neither [tokens_used] nor
    [estimated_cost] ever goes down. *)
Theorem execute_task_totals_grow :
  ∃ c' evs,
    _execute_task clock provider gather_order c0 = (Return (), c') ∧
    ctx_log c' = ctx_log c0 ++ evs ∧
    StronglySorted totals_le
      ((ctx_state c0 :: map event_state evs) ++ [ctx_state c']).
Proof.
  destruct (wp_post (_execute_task clock provider gather_order)
              (λ _ c', totals_grow c0 c') c0)
    as ([] & c' & Heq & evs & Hlog & Hsorted).
  { apply (invariant_execute_task clock provider gather_order
             (totals_grow c0) totals_grow_start_agent
             totals_grow_finish_agent totals_grow_utcnow totals_grow_emit
             (λ pi f _, totals_grow_modify_phase pi f)
             (λ f Hf, totals_grow_modify_state f
                        ltac:(destruct Hf; intros s; by apply totals_le_same))
             (totals_grow c0)).
    - apply totals_grow_utcnow.
    - apply totals_grow_emit.
    - intros f Hf. apply totals_grow_modify_state.
      destruct Hf; intros s; by apply totals_le_same.
    - intros c1 Hc1. unfold _decompose_task. wp_steps.
      apply totals_grow_state; [done|by apply totals_le_same].
    - exists []. rewrite (right_id_L [] (++)). split; [done|].
      cbn. constructor; [repeat constructor|].
      constructor; [apply totals_le_refl|constructor]. }
  by exists c', evs.
Qed.

End TotalsGrow.

(** An instance of X13: a QUALITY task with a provider that answers. *)
Lemma execute_task_totals_grow_witness :
  ∃ c' evs,
    _execute_task example_clock working_provider example_schedule
      example_quality_ctx = (Return (), c') ∧
    ctx_log c' = ctx_log example_quality_ctx ++ evs ∧
    StronglySorted totals_le
      ((ctx_state example_quality_ctx :: map event_state evs)
         ++ [ctx_state c']).
Proof.
  apply (execute_task_totals_grow example_clock working_provider
           example_schedule example_quality_ctx).
  intros task pi ei result [= <-]. cbn. repeat split; [lia..|done].
Defined.

(** ** Parallel phases: every agent runs to its end *)



Section Parallel.

Variable clock : nat → Z.
Variable provider : string → nat → nat → ProviderOutcome.
Variable gather_order : string → nat → list nat.
Variable pi : nat.
Variable old : list AgentExecution.
Variable agents : list string.
Variable task : string.






End Parallel.

Section ParallelPhase.

Variable clock : nat → Z.
Variable provider : string → nat → nat → ProviderOutcome.
Variable gather_order : string → nat → list nat.


End ParallelPhase.


(** ** From submission to the end of the run *)

Lemma mode_configs_lookup m config :
  MODE_CONFIGS !! m = Some config →
  config ∈ [SPEED_config; QUALITY_config; AUTONOMY_config; COST_config].
Proof.
  unfold MODE_CONFIGS. rewrite !lookup_insert_Some, lookup_empty.
  intros [[_ <-]|[_ [[_ <-]|[_ [[_ <-]|[_ [[_ <-]|[_ ?]]]]]]]];
    [| | | |done]; set_solver.
Qed.

Section EndToEnd.

Variable clock : nat → Z.
Variable provider : string → nat → nat → ProviderOutcome.
Variable gather_order : string → nat → list nat.

(** X15.  A task submitted to a running engine with an empty queue and a
    free worker gets a worker at the next run of the queue processor and
    leaves the queue; when its worker has run, the worker is gone and
    the state stored under the id is that of the submitted task, started
    and with the status completed or failed. *)
Theorem submitted_task_runs_to_end e task description mode project priority :
  _running e = true →
  _task_queue e = [] →
  (size (_workers e) < _max_workers e)%nat →
  let e1 := (submit_task clock task description mode project priority e).2 in
  let e2 := _process_queue e1 in
  let e3 := run_worker clock provider gather_order task e2 in
  (task ∈ _workers e2) ∧
  _task_queue e2 = [] ∧
  (task ∉ _workers e3) ∧
  ∃ s, get_task_state task e3 = Some s ∧
       (status s = COMPLETED ∨ status s = FAILED) ∧
       task_id s = task ∧
       is_Some (started_at s).
Proof.
  intros Hrun Hqueue Hfree. cbn zeta. unfold submit_task.
  rewrite Hqueue. cbn [app].
  match goal with
  | |- context [list_find ?P ?l] =>
      assert (list_find P l = None) as ->
  end.
  { apply list_find_None, Forall_singleton.
    by rewrite lookup_insert_eq. }
  cbn [snd sort_by_priority foldr insert_by_priority].
  unfold _process_queue. cbn [_running _active_tasks _max_workers
    _task_queue _workers]. rewrite Hrun. cbn [start_workers].
  rewrite decide_False by lia. rewrite lookup_insert_eq.
  cbn [status create_initial_task_state].
  rewrite decide_True by done.
  split; [apply elem_of_union_l; by apply elem_of_singleton|].
  split; [done|].
  unfold run_worker, get_task_state. cbn [_active_tasks engine_reads
    engine_log _workers]. rewrite lookup_insert_eq.
  match goal with
  | |- context [_execute_task _ _ _ ?c] =>
      destruct (wp_post _ _ _ (execute_task_spec clock provider gather_order c))
        as ([] & c' & Heq & ran & _ & _ & Hstarted & _ & Hend);
      pose proof (wp_post _ _ _
                    (execute_task_identity clock provider gather_order c))
        as ([] & c'' & Heq' & Hid & _)
  end.
  rewrite Heq in Heq' |- *. injection Heq' as <-.
  cbn [_workers _active_tasks].
  split; [apply not_elem_of_difference; right; by apply elem_of_singleton|].
  exists (ctx_state c'). rewrite lookup_insert_eq. split; [done|].
  split; [destruct Hend as [[? _]|[? _]]; [by left|by right]|].
  split; [|by rewrite Hstarted].
  unfold identity in Hid. cbn in Hid. by simplify_eq.
Qed.

(** X16.  No task created by [submit_task] has a phase whose agents run
    concurrently: whatever mode is named, the decomposition of the mode
    config that the submission caches has no phase that is flagged
    parallel and has more than one agent, so that [_execute_phase] runs
    the agents of every phase one after the other. *)
Theorem submitted_tasks_run_sequentially e task description mode project
    priority :
  wf_engine e →
  ∃ state e',
    submit_task clock task description mode project priority e
      = (Return state, e') ∧
    Forall (λ p, phase_parallel p
                 && bool_decide (1 < length (phase_agents p))%nat = false)
      (decompose_phases (mode_config state)).
Proof.
  intros Hwf.
  destruct (submit_task_returns clock e task description mode project
              priority Hwf) as (e' & Heq & _).
  eexists _, e'. split; [exact Heq|]. cbn [mode_config
    create_initial_task_state].
  destruct (MODE_CONFIGS !! submitted_mode mode e) as [config|] eqn:Hconfig;
    cbn [default].
  - apply mode_configs_lookup in Hconfig.
    repeat (apply elem_of_cons in Hconfig as [->|Hconfig];
            [vm_compute; by repeat constructor|]).
    by apply elem_of_nil in Hconfig.
  - vm_compute. by repeat constructor.
Qed.

End EndToEnd.

(** An instance of X15: a SPEED task submitted to a new engine. *)
Lemma submitted_task_runs_to_end_witness :
  let e1 :=
    (submit_task example_clock "t1" "add a login form" (Some "SPEED") None 0
       new_engine).2 in
  let e2 := _process_queue e1 in
  let e3 :=
    run_worker example_clock failing_provider example_schedule "t1" e2 in
  ("t1" ∈ _workers e2) ∧
  _task_queue e2 = [] ∧
  ("t1" ∉ _workers e3) ∧
  ∃ s, get_task_state "t1" e3 = Some s ∧
       (status s = COMPLETED ∨ status s = FAILED) ∧
       task_id s = "t1" ∧
       is_Some (started_at s).
Proof.
  apply (submitted_task_runs_to_end example_clock failing_provider
           example_schedule new_engine "t1" "add a login form"
           (Some "SPEED") None 0).
  - reflexivity.
  - reflexivity.
  - vm_compute. lia.
Defined.

(** An instance of X16: a submission to a new engine. *)
Lemma submitted_tasks_run_sequentially_witness :
  ∃ state e',
    submit_task example_clock "t1" "add a login form" (Some "AUTONOMY")
      None 0 new_engine
      = (Return state, e') ∧
    Forall (λ p, phase_parallel p
                 && bool_decide (1 < length (phase_agents p))%nat = false)
      (decompose_phases (mode_config state)).
Proof.
  apply (submitted_tasks_run_sequentially example_clock new_engine "t1"
           "add a login form" (Some "AUTONOMY") None 0).
  apply wf_engine_new.
Defined.

(** ** The connection manager *)

Lemma disconnect_all_spec disconnected m :
  let m' := manager.disconnect_all disconnected m in
  (∀ client_id,
     manager._connections m' !! client_id
     = if decide (client_id ∈ disconnected) then None
       else manager._connections m !! client_id) ∧
  (∀ client_id,
     manager._metadata m' !! client_id
     = if decide (client_id ∈ disconnected) then None
       else manager._metadata m !! client_id) ∧
  (∀ channel,
     manager._subscriptions m' !! channel
     = (λ subscribers, subscribers ∖ list_to_set disconnected)
         <$> manager._subscriptions m !! channel).
Proof.
  cbn zeta. revert m.
  induction disconnected as [|x disconnected IH]; intros m.
  - cbn. split; [done|]. split; [done|]. intros channel.
    destruct (manager._subscriptions m !! channel) as [s|]; [|done].
    cbn. by rewrite difference_empty_L.
  - cbn [manager.disconnect_all foldl].
    destruct (IH (manager.disconnect x m)) as (Hc & Hm & Hs).
    fold (manager.disconnect_all disconnected (manager.disconnect x m)).
    split; [|split].
    + intros cid. rewrite Hc. cbn [manager.disconnect manager._connections].
      destruct (decide (cid = x)) as [->|Hne].
      * rewrite lookup_delete_eq.
        rewrite (decide_True (P := x ∈ x :: disconnected)) by (by left).
        by destruct (decide (x ∈ disconnected)).
      * rewrite lookup_delete_ne by done.
        destruct (decide (cid ∈ disconnected)) as [Hin|Hnot].
        -- by rewrite decide_True by (by right).
        -- rewrite decide_False; [done|].
           by intros [?|?]%elem_of_cons.
    + intros cid. rewrite Hm. cbn [manager.disconnect manager._metadata].
      destruct (decide (cid = x)) as [->|Hne].
      * rewrite lookup_delete_eq.
        rewrite (decide_True (P := x ∈ x :: disconnected)) by (by left).
        by destruct (decide (x ∈ disconnected)).
      * rewrite lookup_delete_ne by done.
        destruct (decide (cid ∈ disconnected)) as [Hin|Hnot].
        -- by rewrite decide_True by (by right).
        -- rewrite decide_False; [done|].
           by intros [?|?]%elem_of_cons.
    + intros channel. rewrite Hs.
      cbn [manager.disconnect manager._subscriptions].
      rewrite lookup_fmap.
      destruct (manager._subscriptions m !! channel) as [s|]; [|done].
      cbn. by rewrite difference_difference_l_L.
Qed.

Lemma disconnect_all_without (gone : string → Prop) disconnected m :
  (∀ client_id, gone client_id ↔ client_id ∈ disconnected) →
  without gone m (manager.disconnect_all disconnected m).
Proof.
  intros Hgone.
  destruct (disconnect_all_spec disconnected m) as (Hc & Hm & Hs).
  split; [|split].
  - intros cid Hcid%Hgone. rewrite Hc, Hm, !decide_True by done.
    split; [done|]. split; [done|].
    intros channel (s' & Hs' & Hin). rewrite Hs in Hs'.
    destruct (manager._subscriptions m !! channel) as [s|]; [|done].
    injection Hs' as <-. apply elem_of_difference in Hin as [_ Hnot].
    by apply Hnot, elem_of_list_to_set.
  - intros cid Hcid. rewrite Hgone in Hcid.
    rewrite Hc, Hm, !decide_False by done.
    split; [done|]. split; [done|]. intros channel. unfold subscribed.
    setoid_rewrite Hs.
    destruct (manager._subscriptions m !! channel) as [s|]; cbn.
    + split.
      * intros (s' & [= <-] & Hin). exists s. split; [done|].
        by apply elem_of_difference in Hin as [Hin _].
      * intros (s' & [= <-] & Hin). eexists. split; [done|].
        apply elem_of_difference. split; [done|].
        by rewrite elem_of_list_to_set.
    + split; intros (s' & Hs' & _); discriminate Hs'.
  - apply set_eq. intros channel. rewrite !elem_of_dom, Hs.
    apply fmap_is_Some.
Qed.

Lemma broadcast_loop_acc (send_ok : string → bool) items sent_count
    disconnected :
  foldl (λ (acc : nat * list string) (item : string * manager.WebSocket),
           if send_ok item.1 then (S acc.1, acc.2)
           else (acc.1, acc.2 ++ [item.1]))
    (sent_count, disconnected) items
  = ((sent_count
      + length (filter (λ item, send_ok item.1 = true) items))%nat,
     disconnected
     ++ (filter (λ item, send_ok item.1 = false) items).*1).
Proof.
  revert sent_count disconnected.
  induction items as [|[cid ws] items IH]; intros sent_count disconnected.
  - cbn. by rewrite Nat.add_0_r, app_nil_r.
  - cbn [foldl]. rewrite !filter_cons. cbn [fst].
    destruct (send_ok cid) eqn:Hok; rewrite IH; cbn [fst snd].
    + rewrite decide_True, decide_False by done. cbn [length].
      f_equal. lia.
    + rewrite decide_False, decide_True by done. cbn [fmap list_fmap].
      by rewrite <- (assoc_L (++)).
Qed.

Lemma NoDup_fst_filter {A} (P : string * A → Prop) `{!∀ x, Decision (P x)}
    (l : list (string * A)) :
  NoDup l.*1 → NoDup (filter P l).*1.
Proof.
  induction l as [|[k x] l IH]; [done|]. cbn [fmap list_fmap fst].
  intros [Hk Hl]%NoDup_cons. rewrite filter_cons.
  case_decide; [|by apply IH]. cbn [fmap list_fmap fst].
  apply NoDup_cons. split; [|by apply IH].
  intros ((k' & x') & -> & [_ Hin]%list_elem_of_filter)%list_elem_of_fmap.
  apply Hk, list_elem_of_fmap. by exists (k', x').
Qed.

(** X17.  [broadcast] sends to every connected client and disconnects
    exactly those whose send fails.  It returns the number of clients
    whose send succeeded, which is the number of connections left; the
    clients whose send failed lose their connection, their metadata and
    all their subscriptions; every other client keeps what it had, and
    no channel is removed. *)
Theorem broadcast_disconnects_failed (send_ok : string → bool) m :
  let r := manager.broadcast send_ok m in
  r.1 = size (filter (λ item : string * manager.WebSocket,
                        send_ok item.1 = true) (manager._connections m)) ∧
  r.1 = manager.get_connection_count r.2 ∧
  without (λ client_id, connected client_id m ∧ send_ok client_id = false)
    m r.2.
Proof.
  cbn zeta. unfold manager.broadcast, manager.broadcast_loop.
  rewrite broadcast_loop_acc. cbn [fst snd app]. rewrite Nat.add_0_l.
  set (disconnected :=
         (filter (λ item : string * manager.WebSocket,
                    send_ok item.1 = false)
            (map_to_list (manager._connections m))).*1).
  assert (∀ cid, cid ∈ disconnected
                 ↔ connected cid m ∧ send_ok cid = false) as Hgone.
  { intros cid. unfold disconnected, connected.
    rewrite list_elem_of_fmap. split.
    - intros ((cid' & ws) & -> & [Hok Hin]%list_elem_of_filter).
      apply elem_of_map_to_list in Hin. by split; [eexists|].
    - intros [[ws Hws] Hok]. exists (cid, ws). split; [done|].
      apply list_elem_of_filter. split; [done|].
      by apply elem_of_map_to_list. }
  assert (size (filter (λ item : string * manager.WebSocket,
                          send_ok item.1 = true) (manager._connections m))
          = length (filter (λ item : string * manager.WebSocket,
                              send_ok item.1 = true)
                      (map_to_list (manager._connections m)))) as Hsize.
  { rewrite map_filter_alt. apply map_size_list_to_map.
    apply NoDup_fst_filter, NoDup_fst_map_to_list. }
  split; [done|]. split.
  - rewrite <- Hsize. unfold manager.get_connection_count. f_equal.
    apply map_eq. intros cid.
    destruct (disconnect_all_spec disconnected m) as (Hc & _).
    rewrite Hc. apply option_eq. intros ws.
    rewrite map_lookup_filter_Some. cbn [fst].
    case_decide as Hin.
    + apply Hgone in Hin as [_ Hok].
      split; [intros [_ ?]; congruence|done].
    + split; [by intros [? _]|]. intros Hws. split; [done|].
      destruct (send_ok cid) eqn:Hok; [done|].
      exfalso. apply Hin, Hgone. by split; [eexists|].
  - apply disconnect_all_without. intros cid. by rewrite Hgone.
Qed.

Lemma channel_loop_acc (send_ok : string → bool)
    (connections : gmap string manager.WebSocket) subscribers sent_count
    disconnected :
  foldl (λ (acc : nat * list string) (client_id : string),
           match connections !! client_id with
           | Some websocket =>
               if send_ok client_id then (S acc.1, acc.2)
               else (acc.1, acc.2 ++ [client_id])
           | None => acc
           end)
    (sent_count, disconnected) subscribers
  = ((sent_count
      + length (filter (λ cid, is_Some (connections !! cid)
                               ∧ send_ok cid = true) subscribers))%nat,
     disconnected
     ++ filter (λ cid, is_Some (connections !! cid)
                       ∧ send_ok cid = false) subscribers).
Proof.
  revert sent_count disconnected.
  induction subscribers as [|cid subscribers IH];
    intros sent_count disconnected.
  - cbn. by rewrite Nat.add_0_r, app_nil_r.
  - cbn [foldl]. rewrite !filter_cons.
    destruct (connections !! cid) as [ws|] eqn:Hws.
    + destruct (send_ok cid) eqn:Hok; rewrite IH; cbn [fst snd].
      * rewrite decide_True by (by split; [eexists|]).
        rewrite decide_False by (by intros [_ ?]). cbn [length].
        f_equal. lia.
      * rewrite decide_False by (by intros [_ ?]).
        rewrite decide_True by (by split; [eexists|]).
        by rewrite <- (assoc_L (++)).
    + rewrite IH. rewrite !decide_False by (by intros [[? ?] _]).
      by destruct (sent_count, disconnected).
Qed.

Lemma size_filter_elements (P : string → Prop) `{!∀ x, Decision (P x)}
    (X : gset string) :
  size (filter P X) = length (filter P (elements X)).
Proof.
  unfold size, set_size. cbn. apply Permutation_length, NoDup_Permutation.
  - apply NoDup_elements.
  - apply NoDup_filter, NoDup_elements.
  - intros x. by rewrite elem_of_elements, elem_of_filter,
      list_elem_of_filter, elem_of_elements.
Qed.

Lemma broadcast_to_channel_spec (send_ok : string → bool) channel m :
  let r := manager.broadcast_to_channel send_ok channel m in
  match manager._subscriptions m !! channel with
  | None => r = (0%nat, m)
  | Some subscribers =>
      r.1 = size (filter (λ client_id, connected client_id m
                                       ∧ send_ok client_id = true)
                    subscribers) ∧
      without (λ client_id, client_id ∈ subscribers
                            ∧ connected client_id m
                            ∧ send_ok client_id = false) m r.2
  end.
Proof.
  cbn zeta. unfold manager.broadcast_to_channel.
  destruct (manager._subscriptions m !! channel) as [subscribers|];
    [|done].
  unfold manager.channel_loop. rewrite channel_loop_acc.
  cbn [fst snd app]. rewrite Nat.add_0_l. split.
  - by rewrite size_filter_elements.
  - apply disconnect_all_without. intros cid.
    rewrite list_elem_of_filter, elem_of_elements. unfold connected.
    tauto.
Qed.

(** X18.  [broadcast_to_channel] on a channel that nobody has subscribed
    to sends nothing and changes nothing.  Otherwise it returns the
    number of subscribers of the channel that are connected and whose
    send succeeded, and disconnects exactly the connected subscribers
    whose send failed; a subscriber that is not connected is passed over
    and stays subscribed. *)
Theorem channel_broadcast_disconnects_failed (send_ok : string → bool)
    channel m :
  let r := manager.broadcast_to_channel send_ok channel m in
  match manager._subscriptions m !! channel with
  | None => r = (0%nat, m)
  | Some subscribers =>
      r.1 = size (filter (λ client_id, connected client_id m
                                       ∧ send_ok client_id = true)
                    subscribers) ∧
      without (λ client_id, client_id ∈ subscribers
                            ∧ connected client_id m
                            ∧ send_ok client_id = false) m r.2
  end.
Proof. apply broadcast_to_channel_spec. Qed.

Lemma without_nothing m : without (λ _, False) m m.
Proof. by split; [|split]. Qed.

Lemma without_ext (gone gone' : string → Prop) m m' :
  (∀ client_id, gone client_id ↔ gone' client_id) →
  without gone m m' → without gone' m m'.
Proof.
  intros Hext (Hgone & Hkept & Hdom). split; [|split; [|done]].
  - intros cid Hcid%Hext. by apply Hgone.
  - intros cid Hcid. apply Hkept. by rewrite Hext.
Qed.

Lemma without_trans (gone gone' : string → Prop)
    `{!∀ client_id, Decision (gone' client_id)} m m1 m2 :
  without gone m m1 → without gone' m1 m2 →
  without (λ client_id, gone client_id ∨ gone' client_id) m m2.
Proof.
  intros (Hgone & Hkept & Hdom) (Hgone' & Hkept' & Hdom').
  split; [|split; [|by rewrite Hdom']].
  - intros cid Hcid. destruct (decide (gone' cid)) as [Hcid'|Hcid'];
      [by apply Hgone'|].
    destruct Hcid as [Hcid|?]; [|done].
    destruct (Hkept' cid Hcid') as (-> & -> & Hsub).
    destruct (Hgone cid Hcid) as (? & ? & Hnot).
    split; [done|]. split; [done|]. intros channel. rewrite Hsub.
    apply Hnot.
  - intros cid Hcid.
    destruct (Hkept' cid) as (-> & -> & Hsub); [tauto|].
    destruct (Hkept cid) as (-> & -> & Hsub'); [tauto|].
    split; [done|]. split; [done|]. intros channel.
    by rewrite Hsub, Hsub'.
Qed.

(** The first of the two broadcasts of [send_task_update], by the
    subscribers of the channel. *)
Lemma broadcast_to_channel_failed_on (send_ok : string → bool) channel m :
  let r := manager.broadcast_to_channel send_ok channel m in
  r.1 = size (filter (λ client_id, connected client_id m
                                   ∧ send_ok client_id = true)
                (subscribers_of channel m)) ∧
  without (failed_on send_ok channel m) m r.2.
Proof.
  pose proof (broadcast_to_channel_spec send_ok channel m) as Hspec.
  cbn zeta in *. unfold failed_on, subscribers_of.
  destruct (manager._subscriptions m !! channel) as [subscribers|];
    cbn [default].
  - done.
  - rewrite Hspec. cbn [fst snd]. split.
    + symmetry. apply size_empty_iff, elem_of_equiv_empty.
      intros cid [_ Hcid]%elem_of_filter.
      by apply not_elem_of_empty in Hcid.
    + eapply without_ext; [|apply without_nothing]. intros cid.
      split; [done|]. by intros [?%not_elem_of_empty _].
Qed.

(** What the second broadcast finds once the first has disconnected
    the clients of [gone]. *)
Lemma without_connected (gone : string → Prop)
    `{!∀ client_id, Decision (gone client_id)} m m' client_id :
  without gone m m' →
  connected client_id m' ↔ connected client_id m ∧ ¬ gone client_id.
Proof.
  intros (Hgone & Hkept & _). unfold connected.
  destruct (decide (gone client_id)) as [Hcid|Hcid].
  - destruct (Hgone _ Hcid) as (-> & _). split; [by intros [? ?]|tauto].
  - destruct (Hkept _ Hcid) as (-> & _). tauto.
Qed.

Lemma without_subscribers (gone : string → Prop)
    `{!∀ client_id, Decision (gone client_id)} m m' channel client_id :
  without gone m m' →
  client_id ∈ subscribers_of channel m'
  ↔ client_id ∈ subscribers_of channel m ∧ ¬ gone client_id.
Proof.
  intros (Hgone & Hkept & _).
  assert (∀ m, client_id ∈ subscribers_of channel m
               ↔ subscribed client_id channel m) as Hsub.
  { intros m0. unfold subscribers_of, subscribed.
    destruct (manager._subscriptions m0 !! channel) as [s|]; cbn.
    - split; [by exists s|by intros (s' & [= <-] & ?)].
    - split; [by intros ?%not_elem_of_empty|by intros (s' & ? & _)]. }
  rewrite !Hsub. destruct (decide (gone client_id)) as [Hcid|Hcid].
  - destruct (Hgone _ Hcid) as (_ & _ & Hnot). split; [|tauto].
    intros ?. by destruct (Hnot channel).
  - destruct (Hkept _ Hcid) as (_ & _ & ->). tauto.
Qed.

(** X19.  A task update goes to the subscribers of the channel of the
    task and then to the subscribers of the channel of all tasks: a
    connected client subscribed to both is sent the update twice and
    counted twice.  A client whose send on the first channel failed is
    disconnected at once and is not sent to on the second.  The call
    returns the number of sends that succeeded and leaves the manager
    without the clients to which a send failed. *)
Theorem send_task_update_two_channels (send_ok send_ok' : string → bool)
    task_id m :
  let r := manager.send_task_update send_ok send_ok' task_id m in
  let failed := failed_on send_ok (task_channel task_id) m in
  (r.1 = size (filter (λ client_id, connected client_id m
                                    ∧ send_ok client_id = true)
                 (subscribers_of (task_channel task_id) m))
         + size (filter (λ client_id, connected client_id m
                                      ∧ ¬ failed client_id
                                      ∧ send_ok' client_id = true)
                   (subscribers_of "tasks" m)))%nat ∧
  without (λ client_id, failed client_id
                        ∨ (¬ failed client_id
                           ∧ failed_on send_ok' "tasks" m client_id))
    m r.2.
Proof.
  cbn zeta. unfold manager.send_task_update. fold (task_channel task_id).
  destruct (broadcast_to_channel_failed_on send_ok (task_channel task_id) m)
    as [Hn1 Hm1].
  destruct (manager.broadcast_to_channel send_ok _ m) as [n1 m1].
  destruct (broadcast_to_channel_failed_on send_ok' "tasks" m1)
    as [Hn2 Hm2].
  destruct (manager.broadcast_to_channel send_ok' _ m1) as [n2 m2].
  cbn [fst snd] in *. split.
  - rewrite Hn1, Hn2. f_equal. f_equal. apply set_eq. intros cid.
    rewrite !elem_of_filter.
    rewrite (without_connected _ m m1 cid Hm1).
    rewrite (without_subscribers _ m m1 "tasks" cid Hm1). tauto.
  - pose proof (without_trans _ _ m m1 m2 Hm1 Hm2) as Hm.
    eapply without_ext; [|exact Hm].
    intros cid. cbn beta. unfold failed_on at 2.
    rewrite (without_connected _ m m1 cid Hm1).
    rewrite (without_subscribers _ m m1 "tasks" cid Hm1).
    unfold failed_on. tauto.
Qed.

Section ManagerCalls.

Implicit Types (m : manager.ConnectionManager) (k : manager.Call).

Lemma disconnect_all_keys disconnected m :
  dom (manager._metadata m) = dom (manager._connections m) →
  dom (manager._metadata (manager.disconnect_all disconnected m))
  = dom (manager._connections (manager.disconnect_all disconnected m)).
Proof.
  revert m. induction disconnected as [|x disconnected IH]; intros m Hm;
    [done|].
  apply IH. cbn. by rewrite !dom_delete_L, Hm.
Qed.

Lemma broadcast_to_channel_keys send_ok channel m :
  dom (manager._metadata m) = dom (manager._connections m) →
  let m' := (manager.broadcast_to_channel send_ok channel m).2 in
  dom (manager._metadata m') = dom (manager._connections m').
Proof.
  intros Hm. cbn zeta. unfold manager.broadcast_to_channel.
  destruct (manager._subscriptions m !! channel) as [subscribers|];
    [|done].
  destruct (manager.channel_loop _ _ _) as [n d]. cbn [snd].
  by apply disconnect_all_keys.
Qed.

Lemma call_keys k m :
  dom (manager._metadata m) = dom (manager._connections m) →
  dom (manager._metadata (manager.call k m))
  = dom (manager._connections (manager.call k m)).
Proof.
  intros Hm.
  destruct k as [ws cid md|cid|cid ch|cid ch|ok cid|ok|ok ch|ok ok' task];
    cbn [manager.call].
  - cbn. by rewrite !dom_insert_L, Hm.
  - cbn. by rewrite !dom_delete_L, Hm.
  - done.
  - done.
  - unfold manager.send_personal.
    destruct (manager._connections m !! cid); [|done].
    destruct ok; [done|]. cbn. by rewrite !dom_delete_L, Hm.
  - unfold manager.broadcast.
    destruct (manager.broadcast_loop _ _) as [n d]. cbn [snd].
    by apply disconnect_all_keys.
  - by apply broadcast_to_channel_keys.
  - unfold manager.send_task_update.
    pose proof (broadcast_to_channel_keys ok ("task:" ++ task)%string m Hm)
      as Hm1. cbn zeta in Hm1.
    destruct (manager.broadcast_to_channel ok _ m) as [n1 m1].
    pose proof (broadcast_to_channel_keys ok' "tasks" m1 Hm1) as Hm2.
    cbn zeta in Hm2.
    by destruct (manager.broadcast_to_channel ok' _ m1) as [n2 m2].
Qed.

(** X20.  The metadata follows the connections: on a manager in which
    the clients with metadata are the connected clients, they still are
    after every sequence of calls, whichever sends fail. *)
Theorem metadata_follows_connections ks m :
  dom (manager._metadata m) = dom (manager._connections m) →
  let m' := manager.calls ks m in
  dom (manager._metadata m') = dom (manager._connections m').
Proof.
  cbn zeta. revert m. induction ks as [|k ks IH]; intros m Hm; [done|].
  cbn [manager.calls foldl]. apply IH. by apply call_keys.
Qed.

Lemma disconnect_all_channels disconnected m :
  dom (manager._subscriptions (manager.disconnect_all disconnected m))
  = dom (manager._subscriptions m).
Proof.
  revert m. induction disconnected as [|x disconnected IH]; intros m;
    [done|].
  cbn [manager.disconnect_all foldl].
  fold (manager.disconnect_all disconnected (manager.disconnect x m)).
  rewrite IH. cbn. by rewrite dom_fmap_L.
Qed.

Lemma broadcast_to_channel_channels send_ok channel m :
  dom (manager._subscriptions
         (manager.broadcast_to_channel send_ok channel m).2)
  = dom (manager._subscriptions m).
Proof.
  unfold manager.broadcast_to_channel.
  destruct (manager._subscriptions m !! channel) as [subscribers|];
    [|done].
  destruct (manager.channel_loop _ _ _) as [n d]. cbn [snd].
  apply disconnect_all_channels.
Qed.

Lemma call_channels k m :
  dom (manager._subscriptions m)
  ⊆ dom (manager._subscriptions (manager.call k m)).
Proof.
  destruct k as [ws cid md|cid|cid ch|cid ch|ok cid|ok|ok ch|ok ok' task];
    cbn [manager.call].
  - done.
  - cbn. by rewrite dom_fmap_L.
  - cbn. rewrite dom_insert_L. apply union_subseteq_r.
  - cbn. by rewrite dom_alter_L.
  - unfold manager.send_personal.
    destruct (manager._connections m !! cid); [|done].
    destruct ok; [done|]. cbn. by rewrite dom_fmap_L.
  - unfold manager.broadcast.
    destruct (manager.broadcast_loop _ _) as [n d]. cbn [snd].
    by rewrite disconnect_all_channels.
  - by rewrite broadcast_to_channel_channels.
  - unfold manager.send_task_update.
    pose proof (broadcast_to_channel_channels ok ("task:" ++ task)%string m)
      as Hm1.
    destruct (manager.broadcast_to_channel ok _ m) as [n1 m1].
    pose proof (broadcast_to_channel_channels ok' "tasks" m1) as Hm2.
    destruct (manager.broadcast_to_channel ok' _ m1) as [n2 m2].
    cbn [snd] in *. by rewrite Hm2, Hm1.
Qed.

(** X21.  No call removes a channel: a channel that has had a
    subscriber stays in the subscription table, and in the statistics,
    through every sequence of calls, also when all its subscribers have
    unsubscribed or have been disconnected. *)
Theorem channels_are_never_removed ks m channel :
  channel ∈ dom (manager._subscriptions m) →
  let m' := manager.calls ks m in
  channel ∈ dom (manager._subscriptions m') ∧
  is_Some ((manager.get_stats m').2 !! channel).
Proof.
  cbn zeta. revert m. induction ks as [|k ks IH]; intros m Hm.
  - split; [done|]. unfold manager.get_stats. cbn [snd].
    rewrite lookup_fmap. apply fmap_is_Some. by apply elem_of_dom.
  - cbn [manager.calls foldl]. apply IH. by apply call_channels.
Qed.

End ManagerCalls.

(** An instance of X20: a new manager, a client that connects and
    subscribes, and a broadcast that fails for it. *)
Lemma metadata_follows_connections_witness :
  let m' :=
    manager.calls
      [ manager.Connect 0%nat "alice" None;
        manager.Subscribe "alice" "tasks";
        manager.Broadcast (λ _, false) ]
      manager.init in
  dom (manager._metadata m') = dom (manager._connections m').
Proof.
  apply (metadata_follows_connections
           [ manager.Connect 0%nat "alice" None;
             manager.Subscribe "alice" "tasks";
             manager.Broadcast (λ _, false) ]
           manager.init).
  reflexivity.
Defined.

(** An instance of X21: the channel of a client that subscribed and was
    disconnected. *)
Lemma channels_are_never_removed_witness :
  let m' :=
    manager.calls [ manager.Disconnect "alice" ]
      (manager.subscribe "alice" "tasks" manager.init) in
  "tasks" ∈ dom (manager._subscriptions m') ∧
  is_Some ((manager.get_stats m').2 !! "tasks").
Proof.
  apply (channels_are_never_removed [ manager.Disconnect "alice" ]
           (manager.subscribe "alice" "tasks" manager.init) "tasks").
  vm_compute. reflexivity.
Defined.

(** ** The cost of a generation *)

Lemma Z2Qc_le a b : a ≤ b → (Z2Qc a ≤ Z2Qc b)%Qc.
Proof.
  intros Hle. unfold Z2Qc, Qcle. cbn [this Q2Qc].
  rewrite !Qred_correct. by rewrite <- Zle_Qle.
Qed.

Lemma pricing_nonneg model :
  let pricing :=
    default (mk_pricing (3 # 1000) (15 # 1000)) (CLAUDE_PRICING !! model) in
  (0 ≤ price_input pricing)%Qc ∧ (0 ≤ price_output pricing)%Qc.
Proof.
  cbn zeta. destruct (CLAUDE_PRICING !! model) as [pricing|] eqn:Hmodel;
    cbn [default]; [|by split; vm_compute].
  unfold CLAUDE_PRICING in Hmodel.
  repeat (apply lookup_insert_Some in Hmodel as [[_ <-]|[_ Hmodel]];
          [by split; vm_compute|]).
  by rewrite lookup_empty in Hmodel.
Qed.

Lemma per_thousand_le a b :
  a ≤ b → (Z2Qc a / Z2Qc 1000 ≤ Z2Qc b / Z2Qc 1000)%Qc.
Proof.
  intros Hle. unfold Qcdiv.
  apply Qcmult_le_compat_r; [by apply Z2Qc_le|by vm_compute].
Qed.

(** X22.  The cost of a generation is never negative and grows with the
    token counts, for every model name, priced or not: with token
    counts that are not negative, [calculate_cost] is at least 0 and at
    most the cost of any larger counts.  So the results that the Claude
    provider builds from such counts have no negative cost. *)
Theorem calculate_cost_monotone model tokens_input tokens_output
    tokens_input' tokens_output' :
  0 ≤ tokens_input ≤ tokens_input' →
  0 ≤ tokens_output ≤ tokens_output' →
  (0 ≤ calculate_cost model tokens_input tokens_output)%Qc ∧
  (calculate_cost model tokens_input tokens_output
   ≤ calculate_cost model tokens_input' tokens_output')%Qc ∧
  ∀ content,
    (0 ≤ default 0 (gen_cost (claude_result content model tokens_input
                                tokens_output)))%Qc.
Proof.
  intros [Hin Hin'] [Hout Hout'].
  destruct (pricing_nonneg model) as [Hpi Hpo]. cbn zeta in Hpi, Hpo.
  assert (0 ≤ calculate_cost model tokens_input tokens_output)%Qc as H0.
  { unfold calculate_cost. rewrite <- (Qcplus_0_l 0).
    apply Qcplus_le_compat.
    - rewrite <- (Qcmult_0_l (price_input
        (default (mk_pricing (3 # 1000) (15 # 1000))
           (CLAUDE_PRICING !! model)))).
      apply Qcmult_le_compat_r; [|done].
      by apply (per_thousand_le 0).
    - rewrite <- (Qcmult_0_l (price_output
        (default (mk_pricing (3 # 1000) (15 # 1000))
           (CLAUDE_PRICING !! model)))).
      apply Qcmult_le_compat_r; [|done].
      by apply (per_thousand_le 0). }
  split; [done|]. split; [|done].
  unfold calculate_cost. apply Qcplus_le_compat.
  - apply Qcmult_le_compat_r; [by apply per_thousand_le|done].
  - apply Qcmult_le_compat_r; [by apply per_thousand_le|done].
Qed.

(** An instance of X22: a model that has no price. *)
Lemma calculate_cost_monotone_witness :
  (0 ≤ calculate_cost "claude-next" 1200 300)%Qc ∧
  (calculate_cost "claude-next" 1200 300
   ≤ calculate_cost "claude-next" 2000 300)%Qc ∧
  ∀ content,
    (0 ≤ default 0 (gen_cost (claude_result content "claude-next" 1200
                                300)))%Qc.
Proof.
  apply (calculate_cost_monotone "claude-next" 1200 300 2000 300); lia.
Defined.
